(** * Sorting benchmark: introsort and its comparison baselines

    A shallow embedding of [introsort_goes_brr.py] (and of the two routines
    it shares with [qck_vs_heap_sort_branch_prediction_bench.py]) together
    with the proofs of the properties stated for it.

    Python lists of integers are [list Z]; indices are [Z] and follow
    Python's rules (a negative index counts from the end, anything outside
    [-len, len) raises [IndexError]).  In-place routines pass the list
    explicitly.  [while] loops take a [fuel] argument and answer [OutOfFuel]
    when it runs out; [for] loops fold over the list of values their
    [range] produces. *)

From Stdlib Require Import ZArith List Lia Bool Permutation Sorted.
Import ListNotations.
Open Scope Z_scope.

(** ** Outcomes of a run *)

Inductive exn : Type := IndexError.

Inductive outcome (A : Type) : Type :=
| Done (a : A)
| Raise (e : exn)
| OutOfFuel.

Arguments Done {A} a.
Arguments Raise {A} e.
Arguments OutOfFuel {A}.

Definition bind {A B : Type} (m : outcome A) (k : A -> outcome B) : outcome B :=
  match m with
  | Done a => k a
  | Raise e => Raise e
  | OutOfFuel => OutOfFuel
  end.

Notation "x <- m ;; k" := (bind m (fun x => k))
  (at level 61, m at next level, right associativity).
Notation "' p <- m ;; k" := (bind m (fun x => let p := x in k))
  (at level 61, p pattern, m at next level, right associativity).

(** ** Python lists *)

Definition len (arr : list Z) : Z := Z.of_nat (length arr).

(** Position denoted by index [i], if any. *)
Definition norm_index (arr : list Z) (i : Z) : option nat :=
  if (0 <=? i) && (i <? len arr) then Some (Z.to_nat i)
  else if (- len arr <=? i) && (i <? 0) then Some (Z.to_nat (len arr + i))
  else None.

Fixpoint upd (k : nat) (v : Z) (arr : list Z) : list Z :=
  match arr, k with
  | [], _ => []
  | _ :: t, O => v :: t
  | x :: t, S k' => x :: upd k' v t
  end.

(** [arr[i]] *)
Definition getitem (arr : list Z) (i : Z) : outcome Z :=
  match norm_index arr i with
  | Some k => Done (nth k arr 0)
  | None => Raise IndexError
  end.

(** [arr[i] = v] *)
Definition setitem (arr : list Z) (i v : Z) : outcome (list Z) :=
  match norm_index arr i with
  | Some k => Done (upd k v arr)
  | None => Raise IndexError
  end.

(** [arr[a], arr[b] = arr[b], arr[a]]: the right-hand side is read first,
    left to right, then the targets are assigned left to right. *)
Definition swap_items (arr : list Z) (a b : Z) : outcome (list Z) :=
  vb <- getitem arr b ;;
  va <- getitem arr a ;;
  arr1 <- setitem arr a vb ;;
  setitem arr1 b va.

(** Slice bound [i] of [arr[start:stop]], clamped as Python does. *)
Definition clamp (arr : list Z) (i : Z) : nat :=
  Z.to_nat (Z.min (len arr) (if i <? 0 then Z.max 0 (len arr + i) else i)).

Definition slice_bound (arr : list Z) (dflt : nat) (b : option Z) : nat :=
  match b with
  | Some i => clamp arr i
  | None => dflt
  end.

(** [arr[start:stop]] *)
Definition slice (arr : list Z) (start stop : option Z) : list Z :=
  let a := slice_bound arr O start in
  let b := slice_bound arr (length arr) stop in
  firstn (b - a) (skipn a arr).

(** [arr[start:stop] = xs] *)
Definition slice_assign (arr : list Z) (start stop : option Z) (xs : list Z)
  : list Z :=
  let a := slice_bound arr O start in
  let b := Nat.max a (slice_bound arr (length arr) stop) in
  firstn a arr ++ xs ++ skipn b arr.

(** [range(a, b)], [range(a, b, -1)] and [range(a, b, step)] for [step > 0]. *)
Definition py_range (a b : Z) : list Z :=
  map (fun k => a + Z.of_nat k) (seq 0 (Z.to_nat (b - a))).

Definition py_range_down (a b : Z) : list Z :=
  map (fun k => a - Z.of_nat k) (seq 0 (Z.to_nat (a - b))).

Definition py_range_step (a b step : Z) : list Z :=
  map (fun k => a + Z.of_nat k * step)
      (seq 0 (Z.to_nat ((b - a + step - 1) / step))).

(** A [for] loop over [xs] threading the state [s]. *)
Fixpoint for_each {S : Type} (xs : list Z) (body : Z -> S -> outcome S) (s : S)
  : outcome S :=
  match xs with
  | [] => Done s
  | x :: xs' => s' <- body x s ;; for_each xs' body s'
  end.

(** [n.bit_length()] *)
Definition bit_length (n : Z) : Z :=
  if n =? 0 then 0 else Z.log2 (Z.abs n) + 1.

(** The built-in [sorted], on integers: a stable insertion sort. *)
Fixpoint insert_sorted (x : Z) (l : list Z) : list Z :=
  match l with
  | [] => [x]
  | y :: t => if y <=? x then y :: insert_sorted x t else x :: l
  end.

Definition py_sorted (l : list Z) : list Z :=
  fold_left (fun acc x => insert_sorted x acc) l [].

(** ** Manual heapsort *)

Fixpoint _sift_down (fuel : nat) (arr : list Z) (n i : Z) : outcome (list Z) :=
  match fuel with
  | O => OutOfFuel
  | S f =>
      let left := Z.shiftl i 1 + 1 in
      let right := left + 1 in
      let largest := i in
      largest <-
        (if left <? n then
           x <- getitem arr left ;;
           y <- getitem arr largest ;;
           Done (if x >? y then left else largest)
         else Done largest) ;;
      largest <-
        (if right <? n then
           x <- getitem arr right ;;
           y <- getitem arr largest ;;
           Done (if x >? y then right else largest)
         else Done largest) ;;
      if largest =? i then Done arr
      else
        arr1 <- swap_items arr i largest ;;
        _sift_down f arr1 n largest
  end.

Definition heapsort (fuel : nat) (arr : list Z) : outcome (list Z) :=
  let n := len arr in
  arr1 <- for_each (py_range_down (Z.shiftr n 1 - 1) (-1))
            (fun i a => _sift_down fuel a n i) arr ;;
  for_each (py_range_down (n - 1) 0)
    (fun e a => a1 <- swap_items a 0 e ;; _sift_down fuel a1 e 0) arr1.

(** ** Quicksort with Hoare partition *)

(** [while arr[i] < pivot: i += 1]; [reads] records, latest first, the
    indices the loop has read. *)
Fixpoint scan_up (fuel : nat) (arr : list Z) (pivot i : Z) (reads : list Z)
  : outcome (Z * list Z) :=
  match fuel with
  | O => OutOfFuel
  | S f =>
      x <- getitem arr i ;;
      if x <? pivot then scan_up f arr pivot (i + 1) (i :: reads)
      else Done (i, i :: reads)
  end.

(** [while arr[j] > pivot: j -= 1] *)
Fixpoint scan_down (fuel : nat) (arr : list Z) (pivot j : Z) (reads : list Z)
  : outcome (Z * list Z) :=
  match fuel with
  | O => OutOfFuel
  | S f =>
      x <- getitem arr j ;;
      if x >? pivot then scan_down f arr pivot (j - 1) (j :: reads)
      else Done (j, j :: reads)
  end.

(** The partition loop of [_hoare_partition] (lines 49-58), which
    [_introsort] repeats verbatim (lines 133-142).  It answers the list,
    the split index [j] and the indices read by the two scans. *)
Fixpoint partition_loop (fuel : nat) (arr : list Z) (pivot i j : Z)
  (reads : list Z) : outcome (list Z * Z * list Z) :=
  match fuel with
  | O => OutOfFuel
  | S f =>
      '(i1, r1) <- scan_up fuel arr pivot (i + 1) reads ;;
      '(j1, r2) <- scan_down fuel arr pivot (j - 1) r1 ;;
      if i1 >=? j1 then Done (arr, j1, r2)
      else
        arr1 <- swap_items arr i1 j1 ;;
        partition_loop f arr1 pivot i1 j1 r2
  end.

Definition _hoare_partition (fuel : nat) (arr : list Z) (low high : Z)
  : outcome (list Z * Z) :=
  pivot <- getitem arr (Z.shiftr (low + high) 1) ;;
  '(arr1, j, _) <- partition_loop fuel arr pivot (low - 1) (high + 1) [] ;;
  Done (arr1, j).

(** [quicksort_hoare(arr, low, high)]; the loop-back of the [while] is the
    second, tail call. *)
Fixpoint quicksort_hoare_range (fuel : nat) (arr : list Z) (low high : Z)
  : outcome (list Z) :=
  match fuel with
  | O => OutOfFuel
  | S f =>
      if low <? high then
        '(arr1, p) <- _hoare_partition fuel arr low high ;;
        if p - low <? high - p then
          arr2 <- quicksort_hoare_range f arr1 low p ;;
          quicksort_hoare_range f arr2 (p + 1) high
        else
          arr2 <- quicksort_hoare_range f arr1 (p + 1) high ;;
          quicksort_hoare_range f arr2 low p
      else Done arr
  end.

(** [quicksort_hoare(arr)] with the default [low = 0], [high = None]. *)
Definition quicksort_hoare (fuel : nat) (arr : list Z) : outcome (list Z) :=
  quicksort_hoare_range fuel arr 0 (len arr - 1).

(** ** Pivot helpers *)

(** Toggle between median-of-3 and median-of-ninthers for introsort. *)
Definition USE_NINTHERS : bool := true.

Definition _median_of_three (arr : list Z) (low high : Z) : outcome Z :=
  let mid := Z.shiftr (low + high) 1 in
  a <- getitem arr low ;;
  b <- getitem arr mid ;;
  c <- getitem arr high ;;
  Done (if a <? b then
          if b <? c then b else if a <? c then c else a
        else
          if a <? c then a else if b <? c then c else b).

(** [[f(x) for x in xs]] *)
Fixpoint comprehension (f : Z -> outcome Z) (xs : list Z) : outcome (list Z) :=
  match xs with
  | [] => Done []
  | x :: xs' => v <- f x ;; vs <- comprehension f xs' ;; Done (v :: vs)
  end.

Definition _median_of_ninthers (arr : list Z) (low high : Z) : outcome Z :=
  let size := high - low + 1 in
  if size <? 9 then getitem arr (Z.shiftr (low + high) 1)
  else
    let step := Z.max (size / 9) 1 in
    samples <- comprehension (fun i => getitem arr (low + i * step))
                 (py_range 0 9) ;;
    let groups :=
      map (fun i => py_sorted (slice samples (Some i) (Some (i + 3))))
          (py_range_step 0 9 3) in
    medians <- (fix each (gs : list (list Z)) : outcome (list Z) :=
                  match gs with
                  | [] => Done []
                  | g :: gs' =>
                      m <- getitem g 1 ;; ms <- each gs' ;; Done (m :: ms)
                  end) groups ;;
    getitem (py_sorted medians) 1.

(** ** Introsort *)

(** [while j >= low and arr[j] > temp: arr[j + 1] = arr[j]; j -= 1] *)
Fixpoint shift_loop (fuel : nat) (arr : list Z) (low temp j : Z)
  : outcome (list Z * Z) :=
  match fuel with
  | O => OutOfFuel
  | S f =>
      if j >=? low then
        x <- getitem arr j ;;
        if x >? temp then
          y <- getitem arr j ;;
          arr1 <- setitem arr (j + 1) y ;;
          shift_loop f arr1 low temp (j - 1)
        else Done (arr, j)
      else Done (arr, j)
  end.

Definition _insertion_sort (fuel : nat) (arr : list Z) (low high : Z)
  : outcome (list Z) :=
  for_each (py_range (low + 1) (high + 1))
    (fun i a =>
       temp <- getitem a i ;;
       '(a1, j) <- shift_loop fuel a low temp (i - 1) ;;
       setitem a1 (j + 1) temp) arr.

(** The nested [sift] of [_heapsort_partial]; [l] is its first argument. *)
Fixpoint sift (fuel : nat) (arr : list Z) (l n i : Z) : outcome (list Z) :=
  match fuel with
  | O => OutOfFuel
  | S f =>
      let largest := i in
      let left := Z.shiftl i 1 + 1 in
      let right := left + 1 in
      largest <-
        (if left <? n then
           x <- getitem arr (l + left) ;;
           y <- getitem arr (l + largest) ;;
           Done (if x >? y then left else largest)
         else Done largest) ;;
      largest <-
        (if right <? n then
           x <- getitem arr (l + right) ;;
           y <- getitem arr (l + largest) ;;
           Done (if x >? y then right else largest)
         else Done largest) ;;
      if largest =? i then Done arr
      else
        arr1 <- swap_items arr (l + i) (l + largest) ;;
        sift f arr1 l n largest
  end.

Definition _heapsort_partial (fuel : nat) (arr : list Z) (low high : Z)
  : outcome (list Z) :=
  let n := high - low + 1 in
  arr1 <- for_each (py_range_down (Z.shiftr n 1 - 1) (-1))
            (fun i a => sift fuel a low n i) arr ;;
  for_each (py_range_down (n - 1) 0)
    (fun e a =>
       a1 <- swap_items a low (low + e) ;;
       sift fuel a1 low e 0) arr1.

(** The two routines on which a call of the driver can end. *)
Inductive routine : Type := InsertionSorter | HeapFallback.

(** The arguments of a call of the driver: a range and a depth budget. *)
Record call : Type := Call { c_low : Z; c_high : Z; c_maxdepth : Z }.

(** What one turn of the driver's [while] loop leads to: the call returns
    after running one of the two terminal routines, or, after a partition,
    a nested call is made on one side ([nested]) and the loop goes round
    again on the other with the current range and budget [next]. *)
Inductive flow : Type :=
| Return (by_ : routine) (arr : list Z)
| Descend (arr : list Z) (nested next : call).

(** One turn of the [while low < high] loop of [_introsort] (lines
    125-148).  Lines 144-145 are [_introsort(arr, low, j, maxdepth - 1)]
    then [low = j + 1]; lines 147-148 are
    [_introsort(arr, j + 1, high, maxdepth - 1)] then [high = j]; neither
    assigns [maxdepth]. *)
Definition _introsort_turn
  (fuel : nat) (arr : list Z) (low high maxdepth : Z) : outcome flow :=
  if high - low + 1 <=? 16 then
    arr1 <- _insertion_sort fuel arr low high ;;
    Done (Return InsertionSorter arr1)
  else if maxdepth =? 0 then
    arr1 <- _heapsort_partial fuel arr low high ;;
    Done (Return HeapFallback arr1)
  else
    pivot <- (if USE_NINTHERS then _median_of_ninthers arr low high
              else _median_of_three arr low high) ;;
    '(arr1, j, _) <- partition_loop fuel arr pivot (low - 1) (high + 1) [] ;;
    if j - low <? high - j then
      Done (Descend arr1 (Call low j (maxdepth - 1)) (Call (j + 1) high maxdepth))
    else
      Done (Descend arr1 (Call (j + 1) high (maxdepth - 1)) (Call low j maxdepth)).

Fixpoint _introsort (fuel : nat) (arr : list Z) (low high maxdepth : Z)
  : outcome (list Z) :=
  match fuel with
  | O => OutOfFuel
  | S f =>
      if low <? high then
        r <- _introsort_turn fuel arr low high maxdepth ;;
        match r with
        | Return _ arr1 => Done arr1
        | Descend arr1 nested next =>
            arr2 <- _introsort f arr1 (c_low nested) (c_high nested)
                      (c_maxdepth nested) ;;
            _introsort f arr2 (c_low next) (c_high next) (c_maxdepth next)
        end
      else Done arr
  end.

Definition introsort (fuel : nat) (arr : list Z) : outcome (list Z) :=
  let maxdepth := (bit_length (len arr) - 1) * 2 in
  _introsort fuel arr 0 (len arr - 1) maxdepth.

(** ** Mergesort, recursive and bottom-up *)

(** [_merge]: the cursors [i] and [j] are the suffixes [left[i:]] and
    [right[j:]] still to be merged; when one is empty the loop ends and the
    two [extend] calls append what is left of the other. *)
Fixpoint _merge (left right : list Z) : list Z :=
  let fix go (right : list Z) : list Z :=
    match left, right with
    | [], _ => right
    | _, [] => left
    | x :: left', y :: right' =>
        if x <? y then x :: _merge left' right else y :: go right'
    end in
  go right.

Fixpoint mergesort (fuel : nat) (arr : list Z) : outcome (list Z) :=
  match fuel with
  | O => OutOfFuel
  | S f =>
      if len arr <=? 1 then Done arr
      else
        let mid := len arr / 2 in
        left <- mergesort f (slice arr None (Some mid)) ;;
        right <- mergesort f (slice arr (Some mid) None) ;;
        Done (_merge left right)
  end.

(** One [for i in range(0, n, 2 * width)] pass. *)
Definition merge_pass (result : list Z) (n width : Z) : list Z :=
  fold_left
    (fun result i =>
       let left := slice result (Some i) (Some (i + width)) in
       let right := slice result (Some (i + width)) (Some (i + 2 * width)) in
       slice_assign result (Some i) (Some (i + 2 * width)) (_merge left right))
    (py_range_step 0 n (2 * width)) result.

Fixpoint bottom_up_loop (fuel : nat) (result : list Z) (n width : Z)
  : outcome (list Z) :=
  match fuel with
  | O => OutOfFuel
  | S f =>
      if width <? n then bottom_up_loop f (merge_pass result n width) n (width * 2)
      else Done result
  end.

Definition mergesort_bottom_up (fuel : nat) (arr : list Z) : outcome (list Z) :=
  let n := len arr in
  let width := 1 in
  let result := slice arr None None in
  bottom_up_loop fuel result n width.

(** [mergesort] with its lists as objects: a store maps references to
    lists.  The slices [arr[:mid]] and [arr[mid:]] and the list [merged]
    built by [_merge] are new objects; [return arr] answers the argument
    itself; no statement of [mergesort] or [_merge] assigns into [arr],
    [left] or [right]. *)
Definition ref : Type := nat.
Definition store : Type := list (list Z).

Definition deref (st : store) (r : ref) : list Z := nth r st [].

Definition alloc (st : store) (v : list Z) : store * ref :=
  (st ++ [v], length st).

Fixpoint mergesort_ref (fuel : nat) (st : store) (arr : ref)
  : outcome (store * ref) :=
  match fuel with
  | O => OutOfFuel
  | S f =>
      if len (deref st arr) <=? 1 then Done (st, arr)
      else
        let mid := len (deref st arr) / 2 in
        let '(st1, a1) := alloc st (slice (deref st arr) None (Some mid)) in
        '(st2, left') <- mergesort_ref f st1 a1 ;;
        let '(st3, a2) := alloc st2 (slice (deref st2 arr) (Some mid) None) in
        '(st4, right') <- mergesort_ref f st3 a2 ;;
        let '(st5, merged) :=
          alloc st4 (_merge (deref st4 left') (deref st4 right')) in
        Done (st5, merged)
  end.

(** * Specification vocabulary *)

(** Element at, update of, and exchange of positions inside the list. *)
Definition get (arr : list Z) (i : Z) : Z := nth (Z.to_nat i) arr 0.
Definition put (arr : list Z) (i v : Z) : list Z := upd (Z.to_nat i) v arr.
Definition swapped (arr : list Z) (a b : Z) : list Z :=
  put (put arr a (get arr b)) b (get arr a).

(** Number of occurrences of [x], used to compare lists as multisets. *)
Definition occ (arr : list Z) (x : Z) : nat := count_occ Z.eq_dec arr x.
Definition one_if (v x : Z) : nat := if Z.eq_dec v x then 1%nat else 0%nat.

(** The range [lo..hi] of [arr] is in non-decreasing order. *)
Definition sorted_on (arr : list Z) (lo hi : Z) : Prop :=
  forall p q, lo <= p -> p <= q -> q <= hi -> get arr p <= get arr q.

(** [arr'] agrees with [arr] at every index outside [lo..hi]. *)
Definition same_outside (arr arr' : list Z) (lo hi : Z) : Prop :=
  forall k, 0 <= k < len arr -> k < lo \/ hi < k -> get arr' k = get arr k.

(** What an in-place sort of the range [lo..hi] achieves. *)
Record sorts_range (arr arr' : list Z) (lo hi : Z) : Prop := {
  sr_len : len arr' = len arr;
  sr_perm : Permutation arr arr';
  sr_frame : same_outside arr arr' lo hi;
  sr_sorted : sorted_on arr' lo hi
}.

(** [seg arr lo hi] is the sub-list at positions [lo..hi]. *)
Definition seg (arr : list Z) (lo hi : Z) : list Z :=
  firstn (Z.to_nat (hi - lo + 1)) (skipn (Z.to_nat lo) arr).

(** The max-heap laid out at positions [l .. l+n-1]: node [i] sits at
    [l + i], its children at [l + 2i+1] and [l + 2i+2]. *)
Definition heap_at (arr : list Z) (l n i : Z) : Prop :=
  (2 * i + 1 < n -> get arr (l + (2 * i + 1)) <= get arr (l + i)) /\
  (2 * i + 2 < n -> get arr (l + (2 * i + 2)) <= get arr (l + i)).

(** Heap order at every node from [s] on. *)
Definition heap_from (arr : list Z) (l n s : Z) : Prop :=
  forall i, s <= i -> heap_at arr l n i.

(** Heap order everywhere from [s] on except below node [i], whose
    children are still dominated by the parent of [i]. *)
Definition heap_except (arr : list Z) (l n s i : Z) : Prop :=
  (forall k, s <= k -> k <> i -> heap_at arr l n k) /\
  (forall p, s <= p -> i = 2 * p + 1 \/ i = 2 * p + 2 ->
     (2 * i + 1 < n -> get arr (l + (2 * i + 1)) <= get arr (l + p)) /\
     (2 * i + 2 < n -> get arr (l + (2 * i + 2)) <= get arr (l + p))).

(** One of the two guarded comparisons of [sift]. *)
Definition pick (arr : list Z) (l n c cur : Z) : outcome Z :=
  if c <? n then
    x <- getitem arr (l + c) ;;
    y <- getitem arr (l + cur) ;;
    Done (if x >? y then c else cur)
  else Done cur.

(** What the partition loop has achieved when it returns [jf]. *)
Record partitioned (arr arr' : list Z) (pivot low high jf : Z) : Prop := {
  pt_len : len arr' = len arr;
  pt_perm : Permutation arr arr';
  pt_frame : same_outside arr arr' low high;
  pt_left : forall k, low <= k <= jf -> get arr' k <= pivot;
  pt_right : forall k, jf < k <= high -> pivot <= get arr' k
}.

(** The median of three values. *)
Definition median3 (a b c : Z) : Z := Z.max (Z.min a b) (Z.min (Z.max a b) c).

(** Median of the medians of three consecutive groups of three samples. *)
Definition ninther_of (samples : list Z) : outcome Z :=
  match samples with
  | [s0; s1; s2; s3; s4; s5; s6; s7; s8] =>
      Done (median3 (median3 s0 s1 s2) (median3 s3 s4 s5) (median3 s6 s7 s8))
  | _ => Raise IndexError
  end.

(** [_median_of_ninthers] with the sampling kept and the two rounds of
    sorting replaced by medians of three; an intermediate form for the
    proofs. *)
Definition median_of_ninthers_spec (arr : list Z) (low high : Z) : outcome Z :=
  let size := high - low + 1 in
  if size <? 9 then getitem arr ((low + high) / 2)
  else
    let step := Z.max (size / 9) 1 in
    samples <- comprehension (fun i => getitem arr (low + i * step))
                 [0; 1; 2; 3; 4; 5; 6; 7; 8] ;;
    ninther_of samples.

(** Non-decreasing order, as a property of the list. *)
Abbreviation ascending := (StronglySorted Z.le).

(** [runs w l]: [l] is made of ascending runs of [w] elements, the last
    one possibly shorter. *)
Inductive runs (w : nat) : list Z -> Prop :=
| runs_last (r : list Z) :
    ascending r -> (length r <= w)%nat -> runs w r
| runs_cons (r l : list Z) :
    ascending r -> length r = w -> runs w l -> runs w (r ++ l).

(** The body of the [for] loop of a pass, at the block starting at [i]. *)
Definition merge_block (width : Z) (result : list Z) (i : Z) : list Z :=
  let left := slice result (Some i) (Some (i + width)) in
  let right := slice result (Some (i + width)) (Some (i + 2 * width)) in
  slice_assign result (Some i) (Some (i + 2 * width)) (_merge left right).

(** [arr[k] <= arr[k+1]] for every adjacent pair of indices. *)
Definition non_decreasing (s : list Z) : Prop :=
  forall k, 0 <= k -> k + 1 < len s -> get s k <= get s (k + 1).

(** Whether the run of [_introsort] on these arguments takes the
    [HeapFallback] branch, in the call itself or in a call nested in it. *)
Fixpoint reaches_fallback (fuel : nat) (arr : list Z) (low high maxdepth : Z)
  : bool :=
  match fuel with
  | O => false
  | S f =>
      if low <? high then
        match _introsort_turn fuel arr low high maxdepth with
        | Done (Return HeapFallback _) => true
        | Done (Return InsertionSorter _) => false
        | Done (Descend arr1 nested next) =>
            reaches_fallback f arr1 (c_low nested) (c_high nested)
              (c_maxdepth nested)
            || match _introsort f arr1 (c_low nested) (c_high nested)
                       (c_maxdepth nested) with
               | Done arr2 =>
                   reaches_fallback f arr2 (c_low next) (c_high next)
                     (c_maxdepth next)
               | _ => false
               end
        | _ => false
        end
      else false
  end.

(** [step = max(size // 9, 1)] for the range [low..high]. *)
Definition ninther_step (low high : Z) : Z := Z.max ((high - low + 1) / 9) 1.

(** The [i]-th sample: the element at [low + i * step]. *)
Definition ninther_sample (arr : list Z) (low high i : Z) : Z :=
  get arr (low + i * ninther_step low high).

(** A store holding an unrelated list and, at reference 1, the input. *)
Definition example_store : store := [[0]; [5; 3; 8; 3; 9; 1]].

(** How deep the calls of [_introsort] nest during the run on these
    arguments: 0 when the call makes no nested call. *)
Fixpoint nesting (fuel : nat) (arr : list Z) (low high maxdepth : Z) : nat :=
  match fuel with
  | O => O
  | S f =>
      if low <? high then
        match _introsort_turn fuel arr low high maxdepth with
        | Done (Descend arr1 nested next) =>
            Nat.max
              (S (nesting f arr1 (c_low nested) (c_high nested)
                    (c_maxdepth nested)))
              match _introsort f arr1 (c_low nested) (c_high nested)
                      (c_maxdepth nested) with
              | Done arr2 =>
                  nesting f arr2 (c_low next) (c_high next) (c_maxdepth next)
              | _ => O
              end
        | _ => O
        end
      else O
  end.

(** * Verification *)

(** ** Reading and writing at valid positions *)

Lemma length_upd (k : nat) (v : Z) (arr : list Z) :
  length (upd k v arr) = length arr.
Proof.
  revert k; induction arr as [|x t IH]; intros [|k]; simpl; auto.
Qed.

Lemma nth_upd_eq (k : nat) (v : Z) (arr : list Z) :
  (k < length arr)%nat -> nth k (upd k v arr) 0 = v.
Proof.
  revert k; induction arr as [|x t IH]; intros [|k]; simpl; intros H;
    try lia; auto.
  apply IH; lia.
Qed.

Lemma nth_upd_ne (k m : nat) (v : Z) (arr : list Z) :
  k <> m -> nth m (upd k v arr) 0 = nth m arr 0.
Proof.
  revert k m; induction arr as [|x t IH]; intros [|k] [|m]; simpl; intros H;
    try congruence; auto.
Qed.

Lemma len_nonneg (arr : list Z) : 0 <= len arr.
Proof. unfold len; lia. Qed.

Lemma len_put (arr : list Z) (i v : Z) : len (put arr i v) = len arr.
Proof. unfold len, put; now rewrite length_upd. Qed.

Lemma get_put_eq (arr : list Z) (i v : Z) :
  0 <= i < len arr -> get (put arr i v) i = v.
Proof. unfold get, put, len; intros H; apply nth_upd_eq; lia. Qed.

Lemma get_put_ne (arr : list Z) (i j v : Z) :
  0 <= i -> 0 <= j -> i <> j -> get (put arr i v) j = get arr j.
Proof. unfold get, put; intros Hi Hj H; apply nth_upd_ne; lia. Qed.

Lemma put_get_same (arr : list Z) (i : Z) : put arr i (get arr i) = arr.
Proof.
  unfold put, get; generalize (Z.to_nat i) as k.
  induction arr as [|x t IH]; intros [|k]; simpl; auto.
  now rewrite IH.
Qed.

Lemma norm_index_in (arr : list Z) (i : Z) :
  0 <= i < len arr -> norm_index arr i = Some (Z.to_nat i).
Proof.
  intros H; unfold norm_index.
  destruct (Z.leb_spec 0 i); destruct (Z.ltb_spec i (len arr)); simpl; auto; lia.
Qed.

Lemma getitem_in (arr : list Z) (i : Z) :
  0 <= i < len arr -> getitem arr i = Done (get arr i).
Proof. intros H; unfold getitem; now rewrite norm_index_in. Qed.

Lemma setitem_in (arr : list Z) (i v : Z) :
  0 <= i < len arr -> setitem arr i v = Done (put arr i v).
Proof. intros H; unfold setitem; now rewrite norm_index_in. Qed.

Lemma swap_items_in (arr : list Z) (a b : Z) :
  0 <= a < len arr -> 0 <= b < len arr ->
  swap_items arr a b = Done (swapped arr a b).
Proof.
  intros Ha Hb; unfold swap_items, swapped.
  rewrite (getitem_in arr b), (getitem_in arr a) by assumption; simpl.
  rewrite setitem_in by assumption; simpl.
  rewrite setitem_in by (rewrite len_put; assumption); reflexivity.
Qed.

Lemma len_swapped (arr : list Z) (a b : Z) : len (swapped arr a b) = len arr.
Proof. unfold swapped; now rewrite !len_put. Qed.

Lemma get_swapped_l (arr : list Z) (a b : Z) :
  0 <= a < len arr -> 0 <= b < len arr -> get (swapped arr a b) a = get arr b.
Proof.
  intros Ha Hb; unfold swapped.
  destruct (Z.eq_dec a b) as [->|Hne].
  - rewrite get_put_eq by (rewrite len_put; lia); reflexivity.
  - rewrite get_put_ne by lia. now rewrite get_put_eq.
Qed.

Lemma get_swapped_r (arr : list Z) (a b : Z) :
  0 <= a < len arr -> 0 <= b < len arr -> get (swapped arr a b) b = get arr a.
Proof.
  intros Ha Hb; unfold swapped.
  rewrite get_put_eq by (rewrite len_put; lia); reflexivity.
Qed.

Lemma get_swapped_other (arr : list Z) (a b k : Z) :
  0 <= a -> 0 <= b -> 0 <= k -> k <> a -> k <> b ->
  get (swapped arr a b) k = get arr k.
Proof.
  intros Ha Hb Hk Hka Hkb; unfold swapped.
  rewrite !get_put_ne by lia; reflexivity.
Qed.

(** ** Permutations through element counts *)

Lemma occ_upd (k : nat) (v x : Z) (arr : list Z) :
  (k < length arr)%nat ->
  (occ (upd k v arr) x + one_if (nth k arr 0%Z) x = occ arr x + one_if v x)%nat.
Proof.
  unfold occ, one_if.
  revert k; induction arr as [|y t IH]; intros [|k]; simpl; intros H; try lia.
  - destruct (Z.eq_dec v x), (Z.eq_dec y x); lia.
  - specialize (IH k ltac:(lia)). destruct (Z.eq_dec y x); lia.
Qed.

Lemma occ_put (arr : list Z) (i v x : Z) :
  0 <= i < len arr ->
  (occ (put arr i v) x + one_if (get arr i) x = occ arr x + one_if v x)%nat.
Proof. unfold put, get, len; intros H; apply occ_upd; lia. Qed.

Lemma perm_of_occ (l1 l2 : list Z) :
  (forall x, occ l1 x = occ l2 x) -> Permutation l1 l2.
Proof. intros H; now apply (Permutation_count_occ Z.eq_dec). Qed.

Lemma occ_of_perm (l1 l2 : list Z) (x : Z) :
  Permutation l1 l2 -> occ l1 x = occ l2 x.
Proof. intros H; now apply (Permutation_count_occ Z.eq_dec). Qed.

Lemma perm_swapped (arr : list Z) (a b : Z) :
  0 <= a < len arr -> 0 <= b < len arr -> Permutation arr (swapped arr a b).
Proof.
  intros Ha Hb; apply perm_of_occ; intros x; unfold swapped.
  pose proof (occ_put arr a (get arr b) x Ha) as H1.
  pose proof (occ_put (put arr a (get arr b)) b (get arr a) x
                ltac:(rewrite len_put; lia)) as H2.
  destruct (Z.eq_dec a b) as [->|Hne].
  - rewrite get_put_eq in H2 by lia. lia.
  - rewrite get_put_ne in H2 by lia. lia.
Qed.

Lemma perm_len (l1 l2 : list Z) : Permutation l1 l2 -> len l1 = len l2.
Proof. intros H; unfold len; now rewrite (Permutation_length H). Qed.

(** ** Ranges of a list *)

Lemma get_put_at (arr : list Z) (i k v : Z) :
  k = i -> 0 <= i -> i < len arr -> get (put arr i v) k = v.
Proof. intros -> H1 H2; apply get_put_eq; lia. Qed.

Ltac len_norm := rewrite ?len_put, ?len_swapped in *.

Ltac get_put_case :=
  match goal with
  | |- context [get (put ?a ?i ?v) ?k] =>
      destruct (Z.eq_dec k i);
      [ rewrite (get_put_at a i k v) by (len_norm; lia)
      | rewrite (get_put_ne a i k v) by lia ]
  end.

(** ** Insertion sort of a range *)

Lemma perm_shift_hole (c : list Z) (j temp : Z) :
  0 <= j -> j + 1 < len c ->
  Permutation (put c (j + 1) temp) (put (put c (j + 1) (get c j)) j temp).
Proof.
  intros Hj Hlen; apply perm_of_occ; intros x.
  pose proof (occ_put c (j + 1) temp x ltac:(lia)) as H1.
  pose proof (occ_put c (j + 1) (get c j) x ltac:(lia)) as H2.
  pose proof (occ_put (put c (j + 1) (get c j)) j temp x
                ltac:(rewrite len_put; lia)) as H3.
  rewrite get_put_ne in H3 by lia. lia.
Qed.

Lemma shift_loop_spec (fuel : nat) :
  forall (c : list Z) (low temp j i : Z),
    0 <= low -> low - 1 <= j -> j < i -> i < len c ->
    sorted_on c low j ->
    (forall k, j + 1 < k <= i -> temp < get c k) ->
    sorted_on c (j + 2) i ->
    (low <= j -> j + 2 <= i -> get c j <= get c (j + 2)) ->
    (Z.to_nat (j - low + 1) < fuel)%nat ->
    exists c' j',
      shift_loop fuel c low temp j = Done (c', j') /\
      low - 1 <= j' <= j /\ len c' = len c /\
      sorted_on (put c' (j' + 1) temp) low i /\
      Permutation (put c (j + 1) temp) (put c' (j' + 1) temp) /\
      (forall k, 0 <= k < len c -> k < low \/ i < k -> get c' k = get c k).
Proof.
  induction fuel as [|f IH]; intros c low temp j i Hlow Hj Hji Hi S1 S2 S3 S4 Hf;
    [lia|].
  simpl. destruct (Z.geb_spec j low) as [Hge|Hlt].
  - rewrite getitem_in by lia; simpl.
    destruct (Z.gtb_spec (get c j) temp) as [Hgt|Hle].
    + rewrite setitem_in by lia; simpl.
      destruct (IH (put c (j + 1) (get c j)) low temp (j - 1) i)
        as (c' & j' & E & Hj' & Hlen' & Hs & Hp & Hfr);
        try lia; len_norm; try lia.
      * intros p q Hp Hq Hq'. rewrite !get_put_ne by lia. apply S1; lia.
      * intros k Hk. get_put_case; [lia|]. apply S2; lia.
      * replace (j - 1 + 2) with (j + 1) by lia.
        intros p q Hp Hq Hq'.
        do 2 get_put_case; try lia.
        -- transitivity (get c (j + 2)); [apply S4; lia|apply S3; lia].
        -- apply S3; lia.
      * replace (j - 1 + 2) with (j + 1) by lia. intros H1 H2.
        rewrite get_put_eq by lia. rewrite get_put_ne by lia. apply S1; lia.
      * exists c', j'. rewrite E. repeat split; try lia; auto.
        -- replace (j - 1 + 1) with j in Hp by lia.
           eapply Permutation_trans; [|exact Hp].
           apply perm_shift_hole; lia.
        -- intros k Hk Hout. rewrite Hfr by (len_norm; lia).
           rewrite get_put_ne by lia. reflexivity.
    + exists c, j. repeat split; try lia; auto.
      intros p q Hp Hq Hq'.
      do 2 get_put_case; try lia.
      * specialize (S2 q ltac:(lia)). lia.
      * specialize (S1 p j ltac:(lia) ltac:(lia) ltac:(lia)). lia.
      * destruct (Z_le_gt_dec q j).
        -- apply S1; lia.
        -- destruct (Z_le_gt_dec p j).
           ++ specialize (S1 p j ltac:(lia) ltac:(lia) ltac:(lia)).
              specialize (S2 q ltac:(lia)). lia.
           ++ apply S3; lia.
  - exists c, j. repeat split; try lia; auto.
    intros p q Hp Hq Hq'.
    do 2 get_put_case; try lia.
    + specialize (S2 q ltac:(lia)). lia.
    + apply S3; lia.
Qed.

(** ** [for] loops *)

Lemma py_range_nil (a b : Z) : b <= a -> py_range a b = [].
Proof. intros H; unfold py_range. now replace (Z.to_nat (b - a)) with O by lia. Qed.

Lemma py_range_cons (a b : Z) : a < b -> py_range a b = a :: py_range (a + 1) b.
Proof.
  intros H; unfold py_range.
  replace (Z.to_nat (b - a)) with (S (Z.to_nat (b - (a + 1)))) by lia.
  simpl. f_equal; [lia|].
  rewrite <- seq_shift, map_map. apply map_ext; intros k; lia.
Qed.

Lemma py_range_down_nil (a b : Z) : a <= b -> py_range_down a b = [].
Proof.
  intros H; unfold py_range_down. now replace (Z.to_nat (a - b)) with O by lia.
Qed.

Lemma py_range_down_cons (a b : Z) :
  b < a -> py_range_down a b = a :: py_range_down (a - 1) b.
Proof.
  intros H; unfold py_range_down.
  replace (Z.to_nat (a - b)) with (S (Z.to_nat (a - 1 - b))) by lia.
  simpl. f_equal; [lia|].
  rewrite <- seq_shift, map_map. apply map_ext; intros k; lia.
Qed.

Section ForLoops.
Context {S : Type} (body : Z -> S -> outcome S) (Inv : Z -> S -> Prop).

Lemma for_each_up (a b : Z) (s : S) :
  a <= b -> Inv a s ->
  (forall i t, a <= i < b -> Inv i t ->
               exists t', body i t = Done t' /\ Inv (i + 1) t') ->
  exists s', for_each (py_range a b) body s = Done s' /\ Inv b s'.
Proof.
  intros Hab; remember (Z.to_nat (b - a)) as n eqn:Hn.
  revert a s Hab Hn; induction n as [|n IH]; intros a s Hab Hn H0 Hstep.
  - rewrite py_range_nil by lia. simpl. exists s; split; auto.
    now replace b with a by lia.
  - rewrite py_range_cons by lia. simpl.
    destruct (Hstep a s ltac:(lia) H0) as (t & -> & Ht); simpl.
    apply IH; auto; try lia. intros i u Hi; apply Hstep; lia.
Qed.

Lemma for_each_down (a b : Z) (s : S) :
  b <= a -> Inv a s ->
  (forall i t, b < i <= a -> Inv i t ->
               exists t', body i t = Done t' /\ Inv (i - 1) t') ->
  exists s', for_each (py_range_down a b) body s = Done s' /\ Inv b s'.
Proof.
  intros Hab; remember (Z.to_nat (a - b)) as n eqn:Hn.
  revert a s Hab Hn; induction n as [|n IH]; intros a s Hab Hn H0 Hstep.
  - rewrite py_range_down_nil by lia. simpl. exists s; split; auto.
    now replace b with a by lia.
  - rewrite py_range_down_cons by lia. simpl.
    destruct (Hstep a s ltac:(lia) H0) as (t & -> & Ht); simpl.
    apply IH; auto; try lia. intros i u Hi; apply Hstep; lia.
Qed.
End ForLoops.

Lemma sorted_on_trivial (arr : list Z) (lo hi : Z) :
  hi <= lo -> sorted_on arr lo hi.
Proof. intros H p q Hp Hpq Hq. replace q with p by lia. lia. Qed.

Lemma sorts_range_trivial (arr : list Z) (lo hi : Z) :
  hi <= lo -> sorts_range arr arr lo hi.
Proof.
  intros H; split; auto using sorted_on_trivial.
  intros k _ _; reflexivity.
Qed.

Lemma insertion_sort_spec (fuel : nat) (arr : list Z) (low high : Z) :
  0 <= low -> high < len arr -> (Z.to_nat (high - low) < fuel)%nat ->
  exists arr',
    _insertion_sort fuel arr low high = Done arr' /\
    sorts_range arr arr' low high.
Proof.
  intros Hlow Hhigh Hf. unfold _insertion_sort.
  destruct (Z_le_gt_dec high low) as [Hle|Hgt].
  - rewrite py_range_nil by lia. simpl. eauto using sorts_range_trivial.
  - pose (Inv := fun (i : Z) (a : list Z) =>
                   len a = len arr /\ Permutation arr a /\
                   same_outside arr a low high /\ sorted_on a low (i - 1)).
    destruct (for_each_up
                (fun i a =>
                   temp <- getitem a i ;;
                   '(a1, j) <- shift_loop fuel a low temp (i - 1) ;;
                   setitem a1 (j + 1) temp) Inv (low + 1) (high + 1) arr)
      as (arr' & E & Hl & Hp & Hfr & Hs); try lia.
    + repeat split; auto using sorted_on_trivial with zarith.
    + intros i a Hi (Hl & Hp & Hfr & Hs).
      rewrite getitem_in by lia; simpl.
      destruct (shift_loop_spec fuel a low (get a i) (i - 1) i)
        as (c' & j' & E & Hj' & Hlen' & Hs' & Hp' & Hfr'); try lia; auto.
      { apply sorted_on_trivial; lia. }
      rewrite E; simpl. rewrite setitem_in by lia.
        eexists; split; [reflexivity|].
        replace (i - 1 + 1) with i in Hp' by lia.
        rewrite put_get_same in Hp'.
        repeat split.
        * len_norm; lia.
        * eapply Permutation_trans; eauto.
        * intros k Hk Hout. rewrite get_put_ne by lia.
           rewrite Hfr' by lia. apply Hfr; lia.
        * replace (i + 1 - 1) with i by lia. exact Hs'.
    + rewrite E. exists arr'; split; auto.
      replace (high + 1 - 1) with high in Hs by lia. now split.
Qed.

(** ** The elements of a range *)

Lemma get_seg (arr : list Z) (lo hi k : Z) :
  0 <= lo -> lo <= k <= hi -> get (seg arr lo hi) (k - lo) = get arr k.
Proof.
  intros Hlo Hk; unfold get, seg.
  rewrite nth_firstn.
  destruct (Nat.ltb_spec (Z.to_nat (k - lo)) (Z.to_nat (hi - lo + 1))); [|lia].
  rewrite nth_skipn. f_equal; lia.
Qed.

Lemma len_seg (arr : list Z) (lo hi : Z) :
  0 <= lo -> lo <= hi + 1 -> hi < len arr -> len (seg arr lo hi) = hi - lo + 1.
Proof.
  unfold len, seg; intros H1 H2 H3.
  rewrite length_firstn, length_skipn. lia.
Qed.

Lemma seg_split (arr : list Z) (lo hi : Z) :
  0 <= lo -> lo <= hi + 1 ->
  arr = firstn (Z.to_nat lo) arr ++ seg arr lo hi ++ skipn (Z.to_nat (hi + 1)) arr.
Proof.
  intros H1 H2; unfold seg.
  replace (Z.to_nat (hi + 1)) with (Z.to_nat (hi - lo + 1) + Z.to_nat lo)%nat by lia.
  rewrite <- skipn_skipn, !firstn_skipn. reflexivity.
Qed.

Lemma list_eq_get (l1 l2 : list Z) :
  length l1 = length l2 ->
  (forall k, (k < length l1)%nat -> nth k l1 0 = nth k l2 0) -> l1 = l2.
Proof. intros Hl H; apply (nth_ext l1 l2 0 0); auto. Qed.

Lemma range_perm (a a' : list Z) (lo hi : Z) :
  0 <= lo -> lo <= hi + 1 -> hi < len a ->
  len a' = len a -> Permutation a a' -> same_outside a a' lo hi ->
  Permutation (seg a lo hi) (seg a' lo hi).
Proof.
  intros Hlo Hhi Hlen Hl Hp Hfr.
  assert (Hl' : length a' = length a) by (unfold len in Hl; lia).
  rewrite (seg_split a lo hi Hlo Hhi) in Hp at 1.
  rewrite (seg_split a' lo hi Hlo Hhi) in Hp.
  assert (E1 : firstn (Z.to_nat lo) a' = firstn (Z.to_nat lo) a).
  { apply list_eq_get.
    - rewrite !length_firstn; lia.
    - intros k Hk. rewrite length_firstn in Hk. rewrite !nth_firstn.
      destruct (Nat.ltb_spec k (Z.to_nat lo)); auto.
      specialize (Hfr (Z.of_nat k)). unfold get, len in Hfr.
      rewrite Nat2Z.id in Hfr. apply Hfr; lia. }
  assert (E2 : skipn (Z.to_nat (hi + 1)) a' = skipn (Z.to_nat (hi + 1)) a).
  { apply list_eq_get.
    - rewrite !length_skipn; lia.
    - intros k Hk. rewrite length_skipn in Hk. rewrite !nth_skipn.
      specialize (Hfr (Z.of_nat (Z.to_nat (hi + 1) + k))). unfold get, len in Hfr.
      rewrite Nat2Z.id in Hfr. apply Hfr; lia. }
  rewrite E1, E2 in Hp.
  apply Permutation_app_inv_l, Permutation_app_inv_r in Hp. exact Hp.
Qed.

(** Every element found in the range after an in-place rearrangement of the
    range was in the range before. *)
Lemma range_member (a a' : list Z) (lo hi k : Z) :
  0 <= lo -> hi < len a ->
  len a' = len a -> Permutation a a' -> same_outside a a' lo hi ->
  lo <= k <= hi ->
  exists k', lo <= k' <= hi /\ get a' k = get a k'.
Proof.
  intros Hlo Hhi Hl Hp Hfr Hk.
  pose proof (range_perm a a' lo hi Hlo ltac:(lia) Hhi Hl Hp Hfr) as Hseg.
  assert (Hin : In (get a' k) (seg a' lo hi)).
  { rewrite <- (get_seg a' lo hi k) by lia. apply nth_In.
    pose proof (len_seg a' lo hi) as Hls; unfold len in *; lia. }
  apply (Permutation_in _ (Permutation_sym Hseg)) in Hin.
  destruct (In_nth _ _ 0 Hin) as (m & Hm & Em).
  pose proof (len_seg a lo hi Hlo ltac:(lia) Hhi) as Hls; unfold len in Hls.
  exists (lo + Z.of_nat m); split; [lia|].
  rewrite <- (get_seg a lo hi (lo + Z.of_nat m)) by lia.
  unfold get at 2. replace (Z.to_nat (lo + Z.of_nat m - lo)) with m by lia.
  now rewrite Em.
Qed.

Lemma range_bound_le (a a' : list Z) (lo hi v : Z) :
  0 <= lo -> hi < len a ->
  len a' = len a -> Permutation a a' -> same_outside a a' lo hi ->
  (forall k, lo <= k <= hi -> get a k <= v) ->
  forall k, lo <= k <= hi -> get a' k <= v.
Proof.
  intros Hlo Hhi Hl Hp Hfr Hb k Hk.
  destruct (range_member a a' lo hi k) as (k' & Hk' & ->); auto.
Qed.

Lemma range_bound_ge (a a' : list Z) (lo hi v : Z) :
  0 <= lo -> hi < len a ->
  len a' = len a -> Permutation a a' -> same_outside a a' lo hi ->
  (forall k, lo <= k <= hi -> v <= get a k) ->
  forall k, lo <= k <= hi -> v <= get a' k.
Proof.
  intros Hlo Hhi Hl Hp Hfr Hb k Hk.
  destruct (range_member a a' lo hi k) as (k' & Hk' & ->); auto.
Qed.

(** ** Heapsort of a range *)

Lemma shl1 (i : Z) : Z.shiftl i 1 = 2 * i.
Proof. rewrite Z.shiftl_mul_pow2 by lia. lia. Qed.

Lemma shr1 (n : Z) : Z.shiftr n 1 = n / 2.
Proof. rewrite Z.shiftr_div_pow2 by lia. reflexivity. Qed.

Lemma bind_ext {A B : Type} (m : outcome A) (k1 k2 : A -> outcome B) :
  (forall a, k1 a = k2 a) -> bind m k1 = bind m k2.
Proof. intros H; destruct m; simpl; auto. Qed.

Lemma for_each_ext {S : Type} (xs : list Z) (f g : Z -> S -> outcome S) (s : S) :
  (forall x t, f x t = g x t) -> for_each xs f s = for_each xs g s.
Proof.
  intros H; revert s; induction xs as [|x xs IH]; intros s; simpl; auto.
  rewrite H. apply bind_ext; auto.
Qed.

Lemma sift_eq (f : nat) (arr : list Z) (l n i : Z) :
  sift (S f) arr l n i =
  (m1 <- pick arr l n (Z.shiftl i 1 + 1) i ;;
   m2 <- pick arr l n (Z.shiftl i 1 + 1 + 1) m1 ;;
   if m2 =? i then Done arr
   else arr1 <- swap_items arr (l + i) (l + m2) ;; sift f arr1 l n m2).
Proof. reflexivity. Qed.

Lemma pick_spec (arr : list Z) (l n c cur : Z) :
  0 <= l -> 0 <= c -> 0 <= cur < n -> l + n <= len arr ->
  exists m,
    pick arr l n c cur = Done m /\
    ((m = c /\ c < n /\ get arr (l + cur) < get arr (l + c)) \/
     (m = cur /\ (c < n -> get arr (l + c) <= get arr (l + cur)))).
Proof.
  intros Hl Hc Hcur Hn; unfold pick.
  destruct (Z.ltb_spec c n) as [Hlt|Hge].
  - rewrite !getitem_in by lia; simpl.
    destruct (Z.gtb_spec (get arr (l + c)) (get arr (l + cur))).
    + eexists; split; [reflexivity|]. left; lia.
    + eexists; split; [reflexivity|]. right; split; auto; lia.
  - eexists; split; [reflexivity|]. right; split; auto; lia.
Qed.

Lemma same_outside_refl (arr : list Z) (lo hi : Z) : same_outside arr arr lo hi.
Proof. intros k _ _; reflexivity. Qed.

Lemma same_outside_trans (a b c : list Z) (lo hi : Z) :
  len b = len a ->
  same_outside a b lo hi -> same_outside b c lo hi -> same_outside a c lo hi.
Proof.
  intros Hl H1 H2 k Hk Hout. rewrite H2 by lia. apply H1; lia.
Qed.

Lemma same_outside_widen (a b : list Z) (lo hi lo' hi' : Z) :
  lo' <= lo -> hi <= hi' ->
  same_outside a b lo hi -> same_outside a b lo' hi'.
Proof. intros H1 H2 H k Hk Hout. apply H; lia. Qed.

Lemma same_outside_swapped (arr : list Z) (a b lo hi : Z) :
  lo <= a <= hi -> lo <= b <= hi -> 0 <= a -> 0 <= b ->
  same_outside arr (swapped arr a b) lo hi.
Proof.
  intros Ha Hb Ha0 Hb0 k Hk Hout. apply get_swapped_other; lia.
Qed.

Lemma sift_spec (fuel : nat) :
  forall (arr : list Z) (l n s i : Z),
    0 <= l -> 0 <= s <= i -> i < n -> l + n <= len arr ->
    heap_except arr l n s i ->
    (Z.to_nat (n - i) <= fuel)%nat ->
    exists arr',
      sift fuel arr l n i = Done arr' /\
      len arr' = len arr /\ Permutation arr arr' /\
      same_outside arr arr' l (l + n - 1) /\
      heap_from arr' l n s.
Proof.
  induction fuel as [|f IH]; intros arr l n s i Hl Hs Hi Hn [Hk Hg] Hf; [lia|].
  rewrite sift_eq, !shl1.
  destruct (pick_spec arr l n (2 * i + 1) i) as (m1 & -> & H1); try lia.
  cbn [bind].
  assert (Hm1 : 0 <= m1 < n) by lia.
  destruct (pick_spec arr l n (2 * i + 1 + 1) m1) as (m2 & -> & H2); try lia.
  cbn [bind].
  replace (2 * i + 1 + 1) with (2 * i + 2) in H2 by lia.
  assert (Hsum :
    (m2 = i /\ heap_at arr l n i) \/
    ((m2 = 2 * i + 1 \/ m2 = 2 * i + 2) /\ m2 < n /\
     get arr (l + i) < get arr (l + m2) /\
     (2 * i + 1 < n -> get arr (l + (2 * i + 1)) <= get arr (l + m2)) /\
     (2 * i + 2 < n -> get arr (l + (2 * i + 2)) <= get arr (l + m2)))).
  { unfold heap_at.
    destruct H1 as [(E1 & L1 & G1)|(E1 & G1)];
      destruct H2 as [(E2 & L2 & G2)|(E2 & G2)]; subst m2; try subst m1.
    - right. repeat split; try lia.
    - right. repeat split; try lia.
    - right. repeat split; try lia.
    - left. split; auto. }
  clear H1 H2 Hm1.
  destruct (Z.eqb_spec m2 i) as [Em|Hne].
  - destruct Hsum as [(_ & Hat)|Hsum]; [|lia]. subst m2.
    exists arr. split; [reflexivity|]. split; [reflexivity|].
    split; [apply Permutation_refl|]. split; [apply same_outside_refl|].
    intros k Hks. destruct (Z.eq_dec k i) as [->|Hki]; [exact Hat|now apply Hk].
  - destruct Hsum as [(Em & _)|(Hc & Hlt & Hgt & Hc1 & Hc2)]; [lia|].
    rewrite swap_items_in by lia; cbn [bind].
    destruct (IH (swapped arr (l + i) (l + m2)) l n s m2)
      as (arr' & E & Hlen & Hperm & Hfr & Hheap); try lia; len_norm; try lia.
    + split.
      * intros k Hks Hkm.
        assert (Hold := Hk k Hks). unfold heap_at in Hold |- *.
        destruct (Z.eq_dec k i) as [->|Hki].
        -- split; intros Hch.
           ++ rewrite get_swapped_l by lia.
              destruct (Z.eq_dec m2 (2 * i + 1)) as [->|].
              ** rewrite get_swapped_r by lia. lia.
              ** rewrite get_swapped_other by lia. lia.
           ++ rewrite get_swapped_l by lia.
              destruct (Z.eq_dec m2 (2 * i + 2)) as [->|].
              ** rewrite get_swapped_r by lia. lia.
              ** rewrite get_swapped_other by lia. lia.
        -- destruct (Hold Hki) as [Ho1 Ho2].
           rewrite (get_swapped_other arr (l + i) (l + m2) (l + k)) by lia.
           split; intros Hch.
           ++ destruct (Z.eq_dec (2 * k + 1) i) as [Ei|Ei].
              ** replace (l + (2 * k + 1)) with (l + i) by lia.
                 rewrite get_swapped_l by lia.
                 destruct (Hg k Hks ltac:(lia)) as [G1 G2].
                 destruct Hc as [-> | ->]; lia.
              ** rewrite get_swapped_other by lia. auto.
           ++ destruct (Z.eq_dec (2 * k + 2) i) as [Ei|Ei].
              ** replace (l + (2 * k + 2)) with (l + i) by lia.
                 rewrite get_swapped_l by lia.
                 destruct (Hg k Hks ltac:(lia)) as [G1 G2].
                 destruct Hc as [-> | ->]; lia.
              ** rewrite get_swapped_other by lia. auto.
      * intros p Hp Hpm. assert (p = i) by lia. subst p.
        rewrite get_swapped_l by lia.
        destruct (Hk m2 ltac:(lia) ltac:(lia)) as [O1 O2].
        split; intros Hch; rewrite get_swapped_other by lia; auto.
    + exists arr'. rewrite E. split; [reflexivity|]. split; [lia|].
      split; [|split; [|exact Hheap]].
      * eapply Permutation_trans; [|exact Hperm]. apply perm_swapped; lia.
      * eapply same_outside_trans; [| |exact Hfr]; len_norm; auto.
        apply same_outside_swapped; lia.
Qed.

Lemma heap_root_max (arr : list Z) (l n : Z) :
  heap_from arr l n 0 ->
  forall k, 0 <= k < n -> get arr (l + k) <= get arr l.
Proof.
  intros H.
  assert (Hm : forall (m : nat) k, (Z.to_nat k <= m)%nat -> 0 <= k < n ->
                                   get arr (l + k) <= get arr l).
  { induction m as [|m IH]; intros k Hkm Hk.
    - replace k with 0 by lia. replace (l + 0) with l by lia. lia.
    - destruct (Z.eq_dec k 0) as [->|Hk0].
      + replace (l + 0) with l by lia. lia.
      + pose (p := (k - 1) / 2).
        assert (Hp : 0 <= p < k /\ (k = 2 * p + 1 \/ k = 2 * p + 2))
          by (unfold p; Z.div_mod_to_equations; lia).
        destruct (H p ltac:(lia)) as [H1 H2].
        specialize (IH p ltac:(lia) ltac:(lia)).
        destruct Hp as (Hp & [E|E]); rewrite E in *.
        * specialize (H1 ltac:(lia)). lia.
        * specialize (H2 ltac:(lia)). lia. }
  intros k Hk; apply (Hm (Z.to_nat k)); auto.
Qed.

Lemma heapsort_partial_spec (fuel : nat) (arr : list Z) (low high : Z) :
  0 <= low -> high < len arr -> (Z.to_nat (high - low + 1) <= fuel)%nat ->
  exists arr',
    _heapsort_partial fuel arr low high = Done arr' /\
    sorts_range arr arr' low high.
Proof.
  intros Hlow Hhigh Hf. unfold _heapsort_partial.
  set (n := high - low + 1). rewrite shr1.
  destruct (Z_le_gt_dec n 1) as [Hn|Hn].
  - rewrite py_range_down_nil by (Z.div_mod_to_equations; lia). cbn [for_each bind].
    rewrite py_range_down_nil by lia. cbn [for_each].
    eexists; split; [reflexivity|]. apply sorts_range_trivial; lia.
  - (* building the heap *)
    destruct (for_each_down (fun i a => sift fuel a low n i)
                (fun i a => len a = len arr /\ Permutation arr a /\
                            same_outside arr a low high /\
                            heap_from a low n (i + 1))
                (n / 2 - 1) (-1) arr)
      as (a1 & -> & Hl1 & Hp1 & Hfr1 & Hh1).
    { Z.div_mod_to_equations; lia. }
    { split; [reflexivity|]. split; [apply Permutation_refl|].
      split; [apply same_outside_refl|].
      intros i Hi; split; intros Hc; Z.div_mod_to_equations; lia. }
    { intros i a Hi (Hl & Hp & Hfr & Hh).
      destruct (sift_spec fuel a low n i i) as (a' & E & Hl' & Hp' & Hfr' & Hh');
        try lia.
      - Z.div_mod_to_equations; lia.
      - split.
        + intros k Hk Hki; apply Hh; lia.
        + intros p Hp0 Hc; lia.
      - exists a'. split; [exact E|]. split; [lia|].
        split; [eapply Permutation_trans; eauto|].
        split.
        + apply (same_outside_trans arr a a'); auto.
          replace high with (low + n - 1) by (unfold n; lia). exact Hfr'.
        + replace (i - 1 + 1) with i by lia. exact Hh'. }
    cbn [bind]. replace (-1 + 1) with 0 in Hh1 by lia.
    (* moving the maxima to the tail *)
    destruct (for_each_down
                (fun e a => a1 <- swap_items a low (low + e) ;; sift fuel a1 low e 0)
                (fun e a => len a = len arr /\ Permutation arr a /\
                            same_outside arr a low high /\
                            heap_from a low (e + 1) 0 /\
                            sorted_on a (low + e + 1) high /\
                            (forall p q, 0 <= p <= e -> e < q <= n - 1 ->
                                         get a (low + p) <= get a (low + q)))
                (n - 1) 0 a1)
      as (a2 & -> & Hl2 & Hp2 & Hfr2 & Hh2 & Hs2 & Hb2).
    { lia. }
    { split; [exact Hl1|]. split; [exact Hp1|]. split; [exact Hfr1|].
      split; [now replace (n - 1 + 1) with n by lia|].
      split; [apply sorted_on_trivial; unfold n; lia|].
      intros p q Hp Hq; lia. }
    { intros e a He (Hl & Hp & Hfr & Hh & Hs & Hb).
      rewrite swap_items_in by lia. cbn [bind].
      set (b := swapped a low (low + e)).
      assert (Hroot := heap_root_max a low (e + 1) Hh).
      assert (Hbl : len b = len a) by (unfold b; now rewrite len_swapped).
      destruct (sift_spec fuel b low e 0 0) as (a' & E & Hl' & Hp' & Hfr' & Hh');
        try lia.
      - split.
        + intros k Hk Hk0. destruct (Hh k Hk) as [H1 H2].
          unfold heap_at, b. split; intros Hc;
            rewrite !get_swapped_other by lia; [apply H1|apply H2]; lia.
        + intros p Hp0 Hc; lia.
      - assert (Hin : forall k, low <= k <= low + e - 1 ->
                                get a' k <= get a low /\
                                forall q, e < q <= n - 1 -> get a' k <= get a (low + q)).
        { intros k Hk.
          destruct (range_member b a' low (low + e - 1) k)
            as (k' & Hk' & ->); auto; try lia.
          unfold b. destruct (Z.eq_dec k' low) as [->|Hne].
          - rewrite get_swapped_l by lia. split.
            + apply Hroot; lia.
            + intros q Hq; apply Hb; lia.
          - rewrite get_swapped_other by lia.
            replace k' with (low + (k' - low)) by lia. split.
            + apply Hroot; lia.
            + intros q Hq; apply Hb; lia. }
        assert (Hout : forall k, low + e <= k < len arr ->
                                 get a' k = get b k).
        { intros k Hk; apply Hfr'; lia. }
        exists a'. split; [exact E|]. split; [lia|].
        split.
        { eapply Permutation_trans; [exact Hp|].
          eapply Permutation_trans; [|exact Hp']. apply perm_swapped; lia. }
        split.
        { apply (same_outside_trans arr a a'); auto.
          apply (same_outside_trans a b a'); auto.
          - apply same_outside_swapped; unfold n in *; lia.
          - eapply same_outside_widen; [| |exact Hfr']; unfold n in *; lia. }
        split; [now replace (e - 1 + 1) with e by lia|].
        split.
        + replace (low + (e - 1) + 1) with (low + e) by lia.
          intros p q Hp0 Hpq Hq.
          rewrite !Hout by (unfold n in *; lia). unfold b.
          destruct (Z.eq_dec p (low + e)) as [->|Hpe].
          * rewrite get_swapped_r by lia.
            destruct (Z.eq_dec q (low + e)) as [->|Hqe].
            -- rewrite get_swapped_r by lia. lia.
            -- rewrite get_swapped_other by lia.
               replace q with (low + (q - low)) by lia.
               replace low with (low + 0) at 1 by lia.
               apply Hb; unfold n in *; lia.
          * rewrite !get_swapped_other by lia.
            apply Hs; lia.
        + intros p q Hp0 Hq.
          destruct (Hin (low + p) ltac:(lia)) as [Hr Hq'].
          rewrite (Hout (low + q)) by (unfold n in *; lia). unfold b.
          destruct (Z.eq_dec q e) as [->|Hqe].
          * rewrite get_swapped_r by lia. exact Hr.
          * rewrite get_swapped_other by lia. apply Hq'; lia. }
    exists a2. split; [reflexivity|]. split; auto.
    intros p q Hp Hpq Hq.
    destruct (Z.eq_dec p low) as [->|Hpl].
    + destruct (Z.eq_dec q low) as [->|Hql]; [lia|].
      replace q with (low + (q - low)) by lia.
      replace low with (low + 0) at 1 by lia.
      apply Hb2; unfold n; lia.
    + apply Hs2; lia.
Qed.

Lemma sift_down_eq (fuel : nat) :
  forall arr n i, _sift_down fuel arr n i = sift fuel arr 0 n i.
Proof.
  induction fuel as [|f IH]; intros arr n i; [reflexivity|].
  cbn [_sift_down sift]. apply bind_ext; intros m1.
  apply bind_ext; intros m2.
  destruct (m2 =? i); [reflexivity|].
  apply bind_ext; intros a1. apply IH.
Qed.

Lemma heapsort_eq (fuel : nat) (arr : list Z) :
  heapsort fuel arr = _heapsort_partial fuel arr 0 (len arr - 1).
Proof.
  unfold heapsort, _heapsort_partial.
  replace (len arr - 1 - 0 + 1) with (len arr) by lia.
  erewrite for_each_ext by (intros; apply sift_down_eq).
  apply bind_ext; intros a1.
  apply for_each_ext; intros e a.
  apply bind_ext; intros a2. apply sift_down_eq.
Qed.

(** ** Hoare partition *)

Lemma scan_up_spec (fuel : nat) :
  forall (arr : list Z) (pivot i b : Z) (reads : list Z),
    0 <= i -> i <= b -> b < len arr -> pivot <= get arr b ->
    (Z.to_nat (b - i) < fuel)%nat ->
    exists i' new,
      scan_up fuel arr pivot i reads = Done (i', new ++ reads) /\
      i <= i' <= b /\ pivot <= get arr i' /\
      (forall k, i <= k < i' -> get arr k < pivot) /\
      (forall x, In x new -> i <= x <= i').
Proof.
  induction fuel as [|f IH]; intros arr pivot i b reads Hi Hb Hlen Hpb Hf; [lia|].
  cbn [scan_up]. rewrite getitem_in by lia. cbn [bind].
  destruct (Z.ltb_spec (get arr i) pivot) as [Hlt|Hge].
  - assert (i <> b) by (intros ->; lia).
    destruct (IH arr pivot (i + 1) b (i :: reads))
      as (i' & new & E & Hi' & Hp & Hk & Hnew); try lia.
    exists i', (new ++ [i]). rewrite <- app_assoc. split; [exact E|].
    split; [lia|]. split; [exact Hp|]. split.
    + intros k Hk'. destruct (Z.eq_dec k i) as [->|]; [exact Hlt|apply Hk; lia].
    + intros x Hx. apply in_app_or in Hx. destruct Hx as [Hx|[<-|[]]]; [|lia].
      specialize (Hnew x Hx). lia.
  - exists i, [i]. split; [reflexivity|]. split; [lia|]. split; [lia|]. split.
    + intros k Hk; lia.
    + intros x [<-|[]]; lia.
Qed.

Lemma scan_down_spec (fuel : nat) :
  forall (arr : list Z) (pivot j c : Z) (reads : list Z),
    0 <= c -> c <= j -> j < len arr -> get arr c <= pivot ->
    (Z.to_nat (j - c) < fuel)%nat ->
    exists j' new,
      scan_down fuel arr pivot j reads = Done (j', new ++ reads) /\
      c <= j' <= j /\ get arr j' <= pivot /\
      (forall k, j' < k <= j -> pivot < get arr k) /\
      (forall x, In x new -> j' <= x <= j).
Proof.
  induction fuel as [|f IH]; intros arr pivot j c reads Hc Hj Hlen Hpc Hf; [lia|].
  cbn [scan_down]. rewrite getitem_in by lia. cbn [bind].
  destruct (Z.gtb_spec (get arr j) pivot) as [Hgt|Hle].
  - assert (j <> c) by (intros ->; lia).
    destruct (IH arr pivot (j - 1) c (j :: reads))
      as (j' & new & E & Hj' & Hp & Hk & Hnew); try lia.
    exists j', (new ++ [j]). rewrite <- app_assoc. split; [exact E|].
    split; [lia|]. split; [exact Hp|]. split.
    + intros k Hk'. destruct (Z.eq_dec k j) as [->|]; [lia|apply Hk; lia].
    + intros x Hx. apply in_app_or in Hx. destruct Hx as [Hx|[<-|[]]]; [|lia].
      specialize (Hnew x Hx). lia.
  - exists j, [j]. split; [reflexivity|]. split; [lia|]. split; [lia|]. split.
    + intros k Hk; lia.
    + intros x [<-|[]]; lia.
Qed.

Lemma partition_loop_spec (low high pivot : Z) (fuel : nat) :
  forall (arr : list Z) (i j b c : Z) (reads : list Z),
    0 <= low -> high < len arr ->
    low - 1 <= i -> i < j -> j <= high + 1 ->
    (forall k, low <= k <= i -> get arr k <= pivot) ->
    (forall k, j <= k <= high -> pivot <= get arr k) ->
    i < b -> b <= high -> b <= j -> pivot <= get arr b ->
    low <= c -> i <= c -> c < j -> get arr c <= pivot ->
    (Z.to_nat (j - i) <= fuel)%nat ->
    exists arr' jf new,
      partition_loop fuel arr pivot i j reads = Done (arr', jf, new ++ reads) /\
      partitioned arr arr' pivot low high jf /\
      low <= jf /\ i <= jf /\ jf < j /\ (jf <= b \/ jf <= j - 2) /\
      (forall x, In x new -> low <= x <= high).
Proof.
  induction fuel as [|f IH];
    intros arr i j b c reads Hlow Hhigh Hi Hij Hj HL HR Hb1 Hb2 Hb3 Hb Hc1 Hc2 Hc3 Hc Hf;
    [lia|].
  cbn [partition_loop].
  destruct (scan_up_spec (S f) arr pivot (i + 1) b reads)
    as (i1 & n1 & -> & Hi1 & Hpi & Hki & Hn1); try lia.
  cbn [bind].
  destruct (scan_down_spec (S f) arr pivot (j - 1) c (n1 ++ reads))
    as (j1 & n2 & -> & Hj1 & Hpj & Hkj & Hn2); try lia.
  cbn [bind]. rewrite app_assoc.
  assert (Hnew : forall x, In x (n2 ++ n1) -> low <= x <= high).
  { intros x Hx; apply in_app_or in Hx; destruct Hx as [Hx|Hx].
    - specialize (Hn2 x Hx); lia.
    - specialize (Hn1 x Hx); lia. }
  destruct (Z.geb_spec i1 j1) as [Hge|Hlt].
  - exists arr, j1, (n2 ++ n1). split; [reflexivity|]. split.
    + split; auto using same_outside_refl.
      * intros k Hk. destruct (Z_le_gt_dec k i); [apply HL; lia|].
        destruct (Z.eq_dec k j1) as [->|]; [exact Hpj|].
        specialize (Hki k ltac:(lia)). lia.
      * intros k Hk. destruct (Z_le_gt_dec j k); [apply HR; lia|].
        specialize (Hkj k ltac:(lia)). lia.
    + split; [lia|]. split; [lia|]. split; [lia|]. split; [lia|]. exact Hnew.
  - rewrite swap_items_in by lia. cbn [bind].
    destruct (IH (swapped arr i1 j1) i1 j1 j1 i1 ((n2 ++ n1) ++ reads))
      as (arr' & jf & n3 & E & Hpart & Hjf1 & Hjf2 & Hjf3 & Hjf4 & Hn3);
      len_norm; try lia.
    + intros k Hk. destruct (Z.eq_dec k i1) as [->|Hne].
      * rewrite get_swapped_l by lia. exact Hpj.
      * rewrite get_swapped_other by lia.
        destruct (Z_le_gt_dec k i); [apply HL; lia|].
        specialize (Hki k ltac:(lia)). lia.
    + intros k Hk. destruct (Z.eq_dec k j1) as [->|Hne].
      * rewrite get_swapped_r by lia. exact Hpi.
      * rewrite get_swapped_other by lia.
        destruct (Z_le_gt_dec j k); [apply HR; lia|].
        specialize (Hkj k ltac:(lia)). lia.
    + rewrite get_swapped_r by lia. exact Hpi.
    + rewrite get_swapped_l by lia. exact Hpj.
    + exists arr', jf, (n3 ++ n2 ++ n1).
      rewrite E, <- !app_assoc. split; [reflexivity|].
      destruct Hpart as [P1 P2 P3 P4 P5]. len_norm.
      split; [split; auto|].
      * eapply Permutation_trans; [|exact P2]. apply perm_swapped; lia.
      * eapply same_outside_trans; [| |exact P3]; len_norm; auto.
        apply same_outside_swapped; lia.
      * split; [lia|]. split; [lia|]. split; [lia|]. split; [lia|].
        intros x Hx; apply in_app_or in Hx; destruct Hx as [Hx|Hx]; auto.
Qed.

(** The partition of [low..high] from the initial cursors, around a pivot
    that lies between two elements of the range. *)
Lemma partition_range_spec (fuel : nat) (arr : list Z) (low high pivot b c : Z) :
  0 <= low -> low <= high -> high < len arr ->
  low <= b <= high -> pivot <= get arr b ->
  low <= c <= high -> get arr c <= pivot ->
  (Z.to_nat (high - low + 2) <= fuel)%nat ->
  exists arr' jf reads,
    partition_loop fuel arr pivot (low - 1) (high + 1) [] = Done (arr', jf, reads) /\
    partitioned arr arr' pivot low high jf /\
    low <= jf <= high /\ (b < high -> jf < high) /\
    (forall x, In x reads -> low <= x <= high).
Proof.
  intros Hlow Hlh Hhigh Hb Hpb Hc Hpc Hf.
  destruct (partition_loop_spec low high pivot fuel arr (low - 1) (high + 1) b c [])
    as (arr' & jf & new & E & Hpart & H1 & H2 & H3 & H4 & Hn); try lia; auto.
  exists arr', jf, new. rewrite app_nil_r in E.
    split; [exact E|]. split; [exact Hpart|].
    split; [lia|]. split; [lia|]. exact Hn.
Qed.

(** ** Pivot selection *)

Lemma sorted3_mid (a b c : Z) :
  getitem (py_sorted [a; b; c]) 1 = Done (median3 a b c).
Proof.
  unfold py_sorted, median3; cbn [fold_left insert_sorted].
  destruct (Z.leb_spec a b); cbn [insert_sorted];
    destruct (Z.leb_spec a c); destruct (Z.leb_spec b c);
    cbn [insert_sorted];
    rewrite getitem_in by (unfold len; cbn [length]; lia);
    unfold get; change (Z.to_nat 1) with 1%nat; cbn [nth]; f_equal; lia.
Qed.

Lemma median3_cases (a b c : Z) :
  median3 a b c = a \/ median3 a b c = b \/ median3 a b c = c.
Proof. unfold median3; lia. Qed.

Lemma comprehension_length (f : Z -> outcome Z) (xs vs : list Z) :
  comprehension f xs = Done vs -> length vs = length xs.
Proof.
  revert vs; induction xs as [|x xs IH]; intros vs; cbn [comprehension].
  - now intros [= <-].
  - destruct (f x) as [v| |]; cbn [bind]; try discriminate.
    destruct (comprehension f xs) as [ws| |]; cbn [bind]; try discriminate.
    intros [= <-]. cbn. now rewrite (IH ws).
Qed.

Lemma ninther_groups (samples : list Z) :
  length samples = 9%nat ->
  (medians <- (fix each (gs : list (list Z)) : outcome (list Z) :=
                  match gs with
                  | [] => Done []
                  | g :: gs' =>
                      m <- getitem g 1 ;; ms <- each gs' ;; Done (m :: ms)
                  end)
               (map (fun i => py_sorted (slice samples (Some i) (Some (i + 3))))
                    (py_range_step 0 9 3)) ;;
   getitem (py_sorted medians) 1) = ninther_of samples.
Proof.
  intros H.
  do 9 (destruct samples as [|? samples]; [discriminate|]).
  destruct samples; [|discriminate].
  change (py_range_step 0 9 3) with [0; 3; 6].
  cbn [map].
  change (slice [z; z0; z1; z2; z3; z4; z5; z6; z7] (Some 0) (Some (0 + 3)))
    with [z; z0; z1].
  change (slice [z; z0; z1; z2; z3; z4; z5; z6; z7] (Some 3) (Some (3 + 3)))
    with [z2; z3; z4].
  change (slice [z; z0; z1; z2; z3; z4; z5; z6; z7] (Some 6) (Some (6 + 3)))
    with [z5; z6; z7].
  rewrite !sorted3_mid. cbn [bind]. rewrite sorted3_mid. reflexivity.
Qed.

Lemma median_of_ninthers_refines (arr : list Z) (low high : Z) :
  _median_of_ninthers arr low high = median_of_ninthers_spec arr low high.
Proof.
  unfold _median_of_ninthers, median_of_ninthers_spec.
  destruct (high - low + 1 <? 9); [now rewrite shr1|].
  change (py_range 0 9) with [0; 1; 2; 3; 4; 5; 6; 7; 8].
  destruct (comprehension _ _) as [samples| |] eqn:E; cbn [bind]; auto.
  apply ninther_groups. now rewrite (comprehension_length _ _ _ E).
Qed.

(** With at least ten elements in range the pivot is the value of a
    position of the range other than the last. *)
Lemma median_of_ninthers_in_range (arr : list Z) (low high : Z) :
  0 <= low -> high < len arr -> 10 <= high - low + 1 ->
  exists k, low <= k < high /\ _median_of_ninthers arr low high = Done (get arr k).
Proof.
  intros Hlow Hhigh Hsize.
  rewrite median_of_ninthers_refines. unfold median_of_ninthers_spec.
  destruct (Z.ltb_spec (high - low + 1) 9); [lia|].
  set (step := Z.max ((high - low + 1) / 9) 1).
  assert (Hstep : 1 <= step /\ 8 * step < high - low)
    by (unfold step; Z.div_mod_to_equations; lia).
  cbn [comprehension].
  rewrite !getitem_in by lia. cbn [bind ninther_of].
  set (s := fun i => get arr (low + i * step)).
  change (exists k, low <= k < high /\
            Done (median3 (median3 (s 0) (s 1) (s 2)) (median3 (s 3) (s 4) (s 5))
                    (median3 (s 6) (s 7) (s 8))) = Done (get arr k)).
  assert (Hs : forall i, 0 <= i <= 8 ->
                 exists k, low <= k < high /\ s i = get arr k).
  { intros i Hi; exists (low + i * step); split; [nia|reflexivity]. }
  assert (Hm : forall a b c,
             (exists k, low <= k < high /\ a = get arr k) ->
             (exists k, low <= k < high /\ b = get arr k) ->
             (exists k, low <= k < high /\ c = get arr k) ->
             exists k, low <= k < high /\ median3 a b c = get arr k).
  { intros a b c Ha Hb Hc.
    destruct (median3_cases a b c) as [->|[->| ->]]; assumption. }
  destruct (Hm (median3 (s 0) (s 1) (s 2)) (median3 (s 3) (s 4) (s 5))
              (median3 (s 6) (s 7) (s 8))) as (k & Hk & ->);
    [apply Hm; apply Hs; lia ..|].
  exists k; split; [exact Hk|reflexivity].
Qed.

(** ** The two drivers *)

Lemma hoare_partition_spec (fuel : nat) (arr : list Z) (low high : Z) :
  0 <= low -> low < high -> high < len arr ->
  (Z.to_nat (high - low + 2) <= fuel)%nat ->
  exists arr' p,
    _hoare_partition fuel arr low high = Done (arr', p) /\
    partitioned arr arr' (get arr ((low + high) / 2)) low high p /\
    low <= p < high.
Proof.
  intros Hlow Hlh Hhigh Hf. unfold _hoare_partition. rewrite shr1.
  assert (Hmid : low <= (low + high) / 2 < high)
    by (Z.div_mod_to_equations; lia).
  rewrite getitem_in by lia. cbn [bind].
  destruct (partition_range_spec fuel arr low high (get arr ((low + high) / 2))
              ((low + high) / 2) ((low + high) / 2))
    as (arr' & jf & reads & -> & Hpart & Hjf & Hlt & _); try lia.
  cbn [bind]. exists arr', jf. split; [reflexivity|]. split; [exact Hpart|lia].
Qed.

(** Sorting the two sides of a partition sorts the range. *)
Lemma sorted_sides (arr a0 a3 : list Z) (pivot low high j : Z) :
  partitioned arr a0 pivot low high j ->
  len a3 = len a0 -> Permutation a0 a3 -> same_outside a0 a3 low high ->
  sorted_on a3 low j -> sorted_on a3 (j + 1) high ->
  (forall k, low <= k <= j -> get a3 k <= pivot) ->
  (forall k, j < k <= high -> pivot <= get a3 k) ->
  sorts_range arr a3 low high.
Proof.
  intros [P1 P2 P3 P4 P5] Hl Hp Hfr Hs1 Hs2 Hb1 Hb2. split.
  - lia.
  - eapply Permutation_trans; eauto.
  - eapply same_outside_trans; eauto.
  - intros p q Hp0 Hpq Hq.
    destruct (Z_le_gt_dec q j).
    + apply Hs1; lia.
    + destruct (Z_le_gt_dec p j).
      * specialize (Hb1 p ltac:(lia)). specialize (Hb2 q ltac:(lia)). lia.
      * apply Hs2; lia.
Qed.

Lemma sort_left_then_right (arr a0 a1 a2 : list Z) (pivot low high j : Z) :
  0 <= low -> low <= j -> j < high -> high < len arr ->
  partitioned arr a0 pivot low high j ->
  sorts_range a0 a1 low j -> sorts_range a1 a2 (j + 1) high ->
  sorts_range arr a2 low high.
Proof.
  intros Hlow Hj Hjh Hhigh Hpart [L1 L2 L3 L4] [R1 R2 R3 R4].
  assert (Hl0 := pt_len _ _ _ _ _ _ Hpart).
  eapply sorted_sides; eauto.
  - lia.
  - eapply Permutation_trans; eauto.
  - apply (same_outside_trans a0 a1 a2); auto.
    + eapply same_outside_widen; [| |exact L3]; lia.
    + eapply same_outside_widen; [| |exact R3]; lia.
  - intros p q Hp Hpq Hq. rewrite !R3 by lia. apply L4; lia.
  - intros k Hk. rewrite R3 by lia.
    apply (range_bound_le a0 a1 low j); auto; try lia.
    exact (pt_left _ _ _ _ _ _ Hpart).
  - intros k Hk.
    apply (range_bound_ge a1 a2 (j + 1) high); auto; try lia.
    intros m Hm. rewrite L3 by lia.
    apply (pt_right _ _ _ _ _ _ Hpart); lia.
Qed.

Lemma sort_right_then_left (arr a0 a1 a2 : list Z) (pivot low high j : Z) :
  0 <= low -> low <= j -> j < high -> high < len arr ->
  partitioned arr a0 pivot low high j ->
  sorts_range a0 a1 (j + 1) high -> sorts_range a1 a2 low j ->
  sorts_range arr a2 low high.
Proof.
  intros Hlow Hj Hjh Hhigh Hpart [R1 R2 R3 R4] [L1 L2 L3 L4].
  assert (Hl0 := pt_len _ _ _ _ _ _ Hpart).
  eapply sorted_sides; eauto.
  - lia.
  - eapply Permutation_trans; eauto.
  - apply (same_outside_trans a0 a1 a2); auto.
    + eapply same_outside_widen; [| |exact R3]; lia.
    + eapply same_outside_widen; [| |exact L3]; lia.
  - intros p q Hp Hpq Hq. rewrite !L3 by lia. apply R4; lia.
  - intros k Hk.
    apply (range_bound_le a1 a2 low j); auto; try lia.
    intros m Hm. rewrite R3 by lia.
    apply (pt_left _ _ _ _ _ _ Hpart); lia.
  - intros k Hk. rewrite L3 by lia.
    apply (range_bound_ge a0 a1 (j + 1) high); auto; try lia.
    intros m Hm. apply (pt_right _ _ _ _ _ _ Hpart); lia.
Qed.

Lemma quicksort_hoare_range_spec (fuel : nat) :
  forall (arr : list Z) (low high : Z),
    0 <= low -> low <= high + 1 -> high < len arr ->
    (Z.to_nat (high - low + 2) <= fuel)%nat ->
    exists arr',
      quicksort_hoare_range fuel arr low high = Done arr' /\
      sorts_range arr arr' low high.
Proof.
  induction fuel as [|f IH]; intros arr low high Hlow Hlh Hhigh Hf; [lia|].
  cbn [quicksort_hoare_range].
  destruct (Z.ltb_spec low high) as [Hlt|Hge].
  - destruct (hoare_partition_spec (S f) arr low high)
      as (a0 & p & -> & Hpart & Hp); try lia.
    cbn [bind]. assert (Hl0 := pt_len _ _ _ _ _ _ Hpart).
    destruct (p - low <? high - p).
    + destruct (IH a0 low p) as (a1 & -> & H1); try lia. cbn [bind].
      assert (Hl1 := sr_len _ _ _ _ H1).
      destruct (IH a1 (p + 1) high) as (a2 & -> & H2); try lia.
      exists a2; split; [reflexivity|].
      apply (sort_left_then_right arr a0 a1 a2 _ low high p ltac:(lia)
               ltac:(lia) ltac:(lia) ltac:(lia) Hpart H1 H2).
    + destruct (IH a0 (p + 1) high) as (a1 & -> & H1); try lia. cbn [bind].
      assert (Hl1 := sr_len _ _ _ _ H1).
      destruct (IH a1 low p) as (a2 & -> & H2); try lia.
      exists a2; split; [reflexivity|].
      apply (sort_right_then_left arr a0 a1 a2 _ low high p ltac:(lia)
               ltac:(lia) ltac:(lia) ltac:(lia) Hpart H1 H2).
  - exists arr; split; [reflexivity|]. apply sorts_range_trivial; lia.
Qed.

Lemma introsort_range_spec (fuel : nat) :
  forall (arr : list Z) (low high maxdepth : Z),
    0 <= low -> low <= high + 1 -> high < len arr ->
    (Z.to_nat (high - low + 2) <= fuel)%nat ->
    exists arr',
      _introsort fuel arr low high maxdepth = Done arr' /\
      sorts_range arr arr' low high.
Proof.
  induction fuel as [|f IH]; intros arr low high d Hlow Hlh Hhigh Hf; [lia|].
  cbn [_introsort].
  destruct (Z.ltb_spec low high) as [Hlt|Hge];
    [|exists arr; split; [reflexivity|apply sorts_range_trivial; lia]].
  unfold _introsort_turn.
  destruct (Z.leb_spec (high - low + 1) 16) as [Hsmall|Hbig].
  - destruct (insertion_sort_spec (S f) arr low high) as (a1 & -> & H1); try lia.
    cbn [bind]. exists a1; split; [reflexivity|exact H1].
  - destruct (Z.eqb_spec d 0) as [Hd|Hd].
    + destruct (heapsort_partial_spec (S f) arr low high) as (a1 & -> & H1);
        try lia.
      cbn [bind]. exists a1; split; [reflexivity|exact H1].
    + unfold USE_NINTHERS.
      destruct (median_of_ninthers_in_range arr low high) as (k & Hk & ->);
        try lia.
      cbn [bind].
      destruct (partition_range_spec (S f) arr low high (get arr k) k k)
        as (a0 & j & reads & -> & Hpart & Hj & Hjlt & _); try lia.
      cbn [bind]. specialize (Hjlt ltac:(lia)).
      assert (Hl0 := pt_len _ _ _ _ _ _ Hpart).
      destruct (j - low <? high - j); cbn [bind c_low c_high c_maxdepth].
      * destruct (IH a0 low j (d - 1)) as (a1 & -> & H1); try lia. cbn [bind].
        assert (Hl1 := sr_len _ _ _ _ H1).
        destruct (IH a1 (j + 1) high d) as (a2 & -> & H2); try lia.
        exists a2; split; [reflexivity|].
        apply (sort_left_then_right arr a0 a1 a2 _ low high j ltac:(lia)
                 ltac:(lia) ltac:(lia) ltac:(lia) Hpart H1 H2).
      * destruct (IH a0 (j + 1) high (d - 1)) as (a1 & -> & H1); try lia.
        cbn [bind]. assert (Hl1 := sr_len _ _ _ _ H1).
        destruct (IH a1 low j d) as (a2 & -> & H2); try lia.
        exists a2; split; [reflexivity|].
        apply (sort_right_then_left arr a0 a1 a2 _ low high j ltac:(lia)
                 ltac:(lia) ltac:(lia) ltac:(lia) Hpart H1 H2).
Qed.

(** ** Merging *)

Lemma merge_nil_l (r : list Z) : _merge [] r = r.
Proof. destruct r; reflexivity. Qed.

Lemma merge_nil_r (l : list Z) : _merge l [] = l.
Proof. destruct l; reflexivity. Qed.

Lemma merge_cons (x y : Z) (l r : list Z) :
  _merge (x :: l) (y :: r) =
  if x <? y then x :: _merge l (y :: r) else y :: _merge (x :: l) r.
Proof. reflexivity. Qed.

Lemma merge_perm (l r : list Z) : Permutation (l ++ r) (_merge l r).
Proof.
  revert r; induction l as [|x l IHl]; intros r.
  - rewrite merge_nil_l. apply Permutation_refl.
  - induction r as [|y r IHr].
    + rewrite merge_nil_r, app_nil_r. apply Permutation_refl.
    + rewrite merge_cons. destruct (x <? y).
      * cbn [app]. apply perm_skip, IHl.
      * eapply Permutation_trans; [|apply perm_skip, IHr].
        apply Permutation_sym, (Permutation_middle (x :: l) r y).
Qed.

Lemma merge_ascending (l r : list Z) :
  ascending l -> ascending r -> ascending (_merge l r).
Proof.
  revert r; induction l as [|x l IHl]; intros r Hl Hr.
  - now rewrite merge_nil_l.
  - induction r as [|y r IHr].
    + now rewrite merge_nil_r.
    + rewrite merge_cons.
      apply StronglySorted_inv in Hl as Hl'; destruct Hl' as [Hl1 Hl2].
      apply StronglySorted_inv in Hr as Hr'; destruct Hr' as [Hr1 Hr2].
      destruct (Z.ltb_spec x y) as [Hxy|Hyx].
      * constructor; [apply IHl; auto|].
        apply (Permutation_Forall (merge_perm l (y :: r))).
        apply Forall_app; split; [exact Hl2|].
        constructor; [lia|].
        eapply Forall_impl; [|exact Hr2]. intros a Ha; cbn in Ha; lia.
      * constructor; [apply IHr; auto|].
        apply (Permutation_Forall (merge_perm (x :: l) r)).
        apply Forall_app; split; [|exact Hr2].
        constructor; [lia|].
        eapply Forall_impl; [|exact Hl2]. intros a Ha; cbn in Ha; lia.
Qed.

(** ** Slices *)

Lemma firstn_beyond (n : nat) (l : list Z) :
  firstn n l = firstn (Nat.min n (length l)) l.
Proof.
  destruct (Nat.le_gt_cases n (length l)).
  - now rewrite Nat.min_l.
  - rewrite Nat.min_r by lia. rewrite firstn_all, firstn_all2 by lia. reflexivity.
Qed.

Lemma clamp_nonneg (l : list Z) (i : Z) :
  0 <= i -> clamp l i = Nat.min (Z.to_nat i) (length l).
Proof.
  intros Hi; unfold clamp, len.
  destruct (Z.ltb_spec i 0); lia.
Qed.

Lemma slice_app (P R : list Z) (a b : Z) :
  0 <= a <= b ->
  slice (P ++ R) (Some (len P + a)) (Some (len P + b)) =
  firstn (Z.to_nat (b - a)) (skipn (Z.to_nat a) R).
Proof.
  intros Hab; unfold slice, slice_bound.
  rewrite !clamp_nonneg by (unfold len; lia).
  rewrite length_app. unfold len.
  destruct (Nat.le_gt_cases (Z.to_nat a) (length R)) as [Ha|Ha].
  - replace (Nat.min (Z.to_nat (Z.of_nat (length P) + a)) (length P + length R))
      with (length P + Z.to_nat a)%nat by lia.
    rewrite skipn_app, skipn_all2 by lia. cbn [app].
    replace (length P + Z.to_nat a - length P)%nat with (Z.to_nat a) by lia.
    rewrite (firstn_beyond (Z.to_nat (b - a))), length_skipn.
    f_equal; lia.
  - rewrite (skipn_all2 R) by lia. rewrite firstn_nil.
    rewrite skipn_all2 by (rewrite length_app; lia). now rewrite firstn_nil.
Qed.

Lemma slice_assign_app (P R xs : list Z) (c : Z) :
  0 <= c ->
  slice_assign (P ++ R) (Some (len P)) (Some (len P + c)) xs =
  P ++ xs ++ skipn (Z.to_nat c) R.
Proof.
  intros Hc; unfold slice_assign, slice_bound.
  rewrite !clamp_nonneg by (unfold len; lia).
  rewrite length_app. unfold len.
  replace (Nat.min (Z.to_nat (Z.of_nat (length P))) (length P + length R))
    with (length P) by lia.
  rewrite firstn_app, firstn_all, Nat.sub_diag. cbn [firstn].
  rewrite app_nil_r. f_equal. f_equal.
  rewrite skipn_app.
  destruct (Nat.le_gt_cases (Z.to_nat c) (length R)) as [Ha|Ha].
  - rewrite skipn_all2 by lia. cbn [app]. f_equal; lia.
  - rewrite !skipn_all2 by lia. reflexivity.
Qed.

Lemma slice_prefix (arr : list Z) (m : Z) :
  0 <= m -> slice arr None (Some m) = firstn (Z.to_nat m) arr.
Proof.
  intros Hm; unfold slice, slice_bound. rewrite clamp_nonneg by lia.
  rewrite skipn_0, Nat.sub_0_r. symmetry; apply firstn_beyond.
Qed.

Lemma slice_suffix (arr : list Z) (m : Z) :
  0 <= m -> slice arr (Some m) None = skipn (Z.to_nat m) arr.
Proof.
  intros Hm; unfold slice, slice_bound. rewrite clamp_nonneg by lia.
  destruct (Nat.le_gt_cases (Z.to_nat m) (length arr)) as [Ha|Ha].
  - rewrite Nat.min_l by lia. apply firstn_all2. rewrite length_skipn; lia.
  - rewrite Nat.min_r by lia. rewrite !skipn_all2 by lia. apply firstn_nil.
Qed.

Lemma slice_whole (arr : list Z) : slice arr None None = arr.
Proof.
  unfold slice, slice_bound. rewrite skipn_0, Nat.sub_0_r. apply firstn_all.
Qed.

(** ** Recursive mergesort *)

Lemma mergesort_spec (fuel : nat) :
  forall arr, (length arr < fuel)%nat ->
    exists s, mergesort fuel arr = Done s /\ Permutation arr s /\ ascending s.
Proof.
  induction fuel as [|f IH]; intros arr Hf; [lia|].
  cbn [mergesort].
  destruct (Z.leb_spec (len arr) 1) as [Hle|Hgt].
  - exists arr; split; [reflexivity|]. split; [apply Permutation_refl|].
    unfold len in Hle. destruct arr as [|x [|y t]]; cbn [length] in Hle;
      try lia; repeat constructor.
  - assert (Hmid : 0 < len arr / 2 < len arr) by (Z.div_mod_to_equations; lia).
    rewrite slice_prefix, slice_suffix by lia.
    unfold len in Hmid, Hgt.
    destruct (IH (firstn (Z.to_nat (len arr / 2)) arr)) as (l & -> & Hpl & Hsl).
    { rewrite length_firstn. unfold len. lia. }
    destruct (IH (skipn (Z.to_nat (len arr / 2)) arr)) as (r & -> & Hpr & Hsr).
    { rewrite length_skipn. unfold len. lia. }
    cbn [bind]. eexists; split; [reflexivity|]. split.
    + eapply Permutation_trans; [|apply merge_perm].
      rewrite <- (firstn_skipn (Z.to_nat (len arr / 2)) arr) at 1.
      now apply Permutation_app.
    + now apply merge_ascending.
Qed.

(** ** Bottom-up mergesort *)

Lemma py_range_step_nil (a b step : Z) :
  0 < step -> b <= a -> py_range_step a b step = [].
Proof.
  intros Hs Hab; unfold py_range_step.
  assert (H : (b - a + step - 1) / step < 1)
    by (apply Z.div_lt_upper_bound; lia).
  assert (E : Z.to_nat ((b - a + step - 1) / step) = O) by lia.
  now rewrite E.
Qed.

Lemma py_range_step_cons (a b step : Z) :
  0 < step -> a < b ->
  py_range_step a b step = a :: py_range_step (a + step) b step.
Proof.
  intros Hs Hab; unfold py_range_step.
  replace ((b - a + step - 1) / step)
    with ((b - (a + step) + step - 1) / step + 1).
  2:{ rewrite <- Z.div_add by lia. f_equal; lia. }
  assert (0 <= (b - (a + step) + step - 1) / step)
    by (apply Z.div_pos; lia).
  rewrite Z2Nat.inj_add by lia. rewrite Nat.add_comm.
  change (Z.to_nat 1) with 1%nat. cbn [Nat.add seq map].
  replace (a + Z.of_nat 0 * step) with a by lia. apply f_equal.
  rewrite <- seq_shift, map_map. apply map_ext; intros k; lia.
Qed.

Lemma runs_one (l : list Z) : runs 1 l.
Proof.
  induction l as [|x l IH].
  - apply runs_last; [constructor|cbn; lia].
  - apply (runs_cons 1 [x] l); auto. repeat constructor.
Qed.

Lemma runs_firstn (w : nat) (l : list Z) : runs w l -> ascending (firstn w l).
Proof.
  intros [r Hr Hl|r t Hr Hl Ht].
  - now rewrite firstn_all2.
  - rewrite firstn_app, firstn_all2 by lia.
    replace (w - length r)%nat with O by lia. cbn [firstn]. now rewrite app_nil_r.
Qed.

Lemma runs_skipn (w : nat) (l : list Z) : runs w l -> runs w (skipn w l).
Proof.
  intros [r Hr Hl|r t Hr Hl Ht].
  - rewrite skipn_all2 by lia. apply runs_last; [constructor|cbn; lia].
  - rewrite skipn_app, skipn_all2 by lia.
    replace (w - length r)%nat with O by lia. exact Ht.
Qed.

Lemma runs_all (w : nat) (l : list Z) :
  runs w l -> (length l <= w)%nat -> ascending l.
Proof.
  intros [r Hr Hl|r t Hr Hl Ht] Hlen; auto.
  rewrite length_app in Hlen. destruct t; [|cbn [length] in Hlen; lia].
  now rewrite app_nil_r.
Qed.

Lemma slice_app0 (P R : list Z) (b : Z) :
  0 <= b ->
  slice (P ++ R) (Some (len P)) (Some (len P + b)) = firstn (Z.to_nat b) R.
Proof.
  intros Hb. pose proof (slice_app P R 0 b ltac:(lia)) as H.
  rewrite Z.add_0_r, Z.sub_0_r in H. exact H.
Qed.

Lemma merge_block_app (w : Z) (P R : list Z) :
  1 <= w ->
  merge_block w (P ++ R) (len P) =
  P ++ _merge (firstn (Z.to_nat w) R)
              (firstn (Z.to_nat w) (skipn (Z.to_nat w) R))
    ++ skipn (Z.to_nat (2 * w)) R.
Proof.
  intros Hw; unfold merge_block.
  rewrite slice_app0, slice_app, slice_assign_app by lia.
  replace (2 * w - w) with w by lia. reflexivity.
Qed.

Lemma merge_pass_from (w n : Z) :
  1 <= w ->
  forall (m : nat) (R P : list Z),
    (length R <= m)%nat -> runs (Z.to_nat w) R -> n = len P + len R ->
    exists R',
      fold_left (merge_block w) (py_range_step (len P) n (2 * w)) (P ++ R)
      = P ++ R' /\
      Permutation R R' /\ runs (Z.to_nat (2 * w)) R'.
Proof.
  intros Hw; induction m as [|m IH]; intros R P Hm Hruns Hn.
  - destruct R; [|cbn [length] in Hm; lia].
    rewrite py_range_step_nil by (unfold len in *; cbn [length] in *; lia).
    exists []. split; [reflexivity|]. split; [constructor|].
    apply runs_last; [constructor|cbn; lia].
  - destruct (Nat.eq_dec (length R) 0) as [E0|Hpos].
    + destruct R; [|discriminate].
      rewrite py_range_step_nil by (unfold len in *; cbn [length] in *; lia).
      exists []. split; [reflexivity|]. split; [constructor|].
      apply runs_last; [constructor|cbn; lia].
    + rewrite py_range_step_cons by (unfold len in *; lia).
      cbn [fold_left]. rewrite merge_block_app by lia.
      set (r1 := firstn (Z.to_nat w) R).
      set (r2 := firstn (Z.to_nat w) (skipn (Z.to_nat w) R)).
      set (R2 := skipn (Z.to_nat (2 * w)) R).
      assert (HR : R = (r1 ++ r2) ++ R2).
      { unfold r1, r2, R2.
        replace (Z.to_nat (2 * w)) with (Z.to_nat w + Z.to_nat w)%nat by lia.
        rewrite <- skipn_skipn, <- app_assoc, !firstn_skipn. reflexivity. }
      assert (Hasc : ascending (_merge r1 r2)).
      { apply merge_ascending; [apply runs_firstn; auto|].
        apply runs_firstn, runs_skipn; auto. }
      assert (Hlen : length (_merge r1 r2) = length (r1 ++ r2))
        by (symmetry; apply Permutation_length, merge_perm).
      assert (Hl12 : length (r1 ++ r2)
                     = Nat.min (Z.to_nat (2 * w)) (length R)).
      { unfold r1, r2. rewrite length_app, !length_firstn, length_skipn. lia. }
      destruct (IH R2 (P ++ _merge r1 r2)) as (R2' & E & Hp & Hr).
      * unfold R2. rewrite length_skipn. lia.
      * unfold R2.
        replace (Z.to_nat (2 * w)) with (Z.to_nat w + Z.to_nat w)%nat by lia.
        rewrite <- skipn_skipn. now apply runs_skipn, runs_skipn.
      * unfold len in *. rewrite length_app, Hlen, Hl12.
        unfold R2. rewrite length_skipn. lia.
      * destruct (Nat.le_gt_cases (length R) (Z.to_nat (2 * w))) as [Hshort|Hlong].
        -- assert (R2 = []) by (unfold R2; apply skipn_all2; lia).
           rewrite H in *. rewrite app_nil_r in HR.
           rewrite py_range_step_nil by (unfold len in *; lia).
           cbn [fold_left]. exists (_merge r1 r2). rewrite app_nil_r.
           split; [reflexivity|]. split.
           ++ rewrite HR at 1. apply merge_perm.
           ++ apply runs_last; auto. lia.
        -- replace (len P + 2 * w) with (len (P ++ _merge r1 r2))
             by (unfold len; rewrite length_app, Hlen, Hl12; lia).
           rewrite app_assoc, E. exists (_merge r1 r2 ++ R2').
           rewrite <- app_assoc. split; [reflexivity|]. split.
           ++ rewrite HR at 1. apply Permutation_app; auto. apply merge_perm.
           ++ apply runs_cons; auto. lia.
Qed.

Lemma merge_pass_spec (result : list Z) (w : Z) :
  1 <= w -> runs (Z.to_nat w) result ->
  Permutation result (merge_pass result (len result) w) /\
  runs (Z.to_nat (2 * w)) (merge_pass result (len result) w).
Proof.
  intros Hw Hr.
  destruct (merge_pass_from w (len result) Hw (length result) result []
              (le_n _) Hr) as (R' & E & Hp & Hr'); [reflexivity|].
  unfold merge_pass. cbn [app] in E. change (len []) with 0 in E.
  unfold merge_block in E. rewrite E. auto.
Qed.

Lemma bottom_up_loop_spec (arr : list Z) (fuel : nat) :
  forall (result : list Z) (width : Z),
    1 <= width -> Permutation arr result -> runs (Z.to_nat width) result ->
    (Z.to_nat (len arr - width) < fuel)%nat ->
    exists s,
      bottom_up_loop fuel result (len arr) width = Done s /\
      Permutation arr s /\ ascending s.
Proof.
  induction fuel as [|f IH]; intros result width Hw Hp Hr Hf; [lia|].
  cbn [bottom_up_loop]. assert (Hl := perm_len _ _ Hp).
  destruct (Z.ltb_spec width (len arr)) as [Hlt|Hge].
  - destruct (merge_pass_spec result width Hw Hr) as [Hp' Hr'].
    rewrite <- Hl in Hp', Hr'.
    apply IH; try lia.
    + eapply Permutation_trans; eauto.
    + now replace (width * 2) with (2 * width) by lia.
  - exists result. split; [reflexivity|]. split; [exact Hp|].
    apply (runs_all _ _ Hr). unfold len in *; lia.
Qed.

Lemma mergesort_bottom_up_spec (fuel : nat) (arr : list Z) :
  (length arr < fuel)%nat ->
  exists s, mergesort_bottom_up fuel arr = Done s /\
            Permutation arr s /\ ascending s.
Proof.
  intros Hf; unfold mergesort_bottom_up. rewrite slice_whole.
  apply bottom_up_loop_spec; try lia; auto.
  - apply runs_one.
  - unfold len; lia.
Qed.

(** ** Sorted lists *)

Lemma get_cons_succ (x : Z) (t : list Z) (k : Z) :
  0 <= k -> get (x :: t) (k + 1) = get t k.
Proof.
  intros Hk; unfold get.
  replace (Z.to_nat (k + 1)) with (S (Z.to_nat k)) by lia. reflexivity.
Qed.

Lemma len_cons (x : Z) (t : list Z) : len (x :: t) = len t + 1.
Proof. unfold len; cbn [length]; lia. Qed.

Lemma sorted_on_ascending (s : list Z) :
  sorted_on s 0 (len s - 1) -> ascending s.
Proof.
  induction s as [|x t IH]; intros H; constructor.
  - apply IH. intros p q Hp Hpq Hq.
    rewrite <- (get_cons_succ x t p), <- (get_cons_succ x t q) by lia.
    apply H; rewrite ?len_cons; lia.
  - apply Forall_forall; intros y Hy.
    destruct (In_nth _ _ 0 Hy) as (m & Hm & <-).
    specialize (H 0 (Z.of_nat m + 1)). rewrite len_cons in H.
    rewrite get_cons_succ in H by lia. unfold get in H at 2.
    rewrite Nat2Z.id in H. unfold len in H. apply H; lia.
Qed.

Lemma ascending_sorted_on (s : list Z) :
  ascending s -> sorted_on s 0 (len s - 1).
Proof.
  induction 1 as [|x t Ht IH Hx]; intros p q Hp Hpq Hq.
  - unfold len in Hq; cbn in Hq; lia.
  - rewrite len_cons in Hq.
    destruct (Z.eq_dec p 0) as [->|Hp0].
    + destruct (Z.eq_dec q 0) as [->|Hq0]; [lia|].
      replace q with (q - 1 + 1) by lia. rewrite get_cons_succ by lia.
      change (get (x :: t) 0) with x.
      rewrite Forall_forall in Hx. apply Hx, nth_In. unfold len in Hq; lia.
    + replace q with (q - 1 + 1) by lia. replace p with (p - 1 + 1) by lia.
      rewrite !get_cons_succ by lia. apply IH; lia.
Qed.

Lemma sorted_on_non_decreasing (s : list Z) :
  sorted_on s 0 (len s - 1) -> non_decreasing s.
Proof. intros H k Hk Hk'. apply H; lia. Qed.

Lemma ascending_non_decreasing (s : list Z) : ascending s -> non_decreasing s.
Proof. intros H; now apply sorted_on_non_decreasing, ascending_sorted_on. Qed.

Lemma non_decreasing_ascending (s : list Z) : non_decreasing s -> ascending s.
Proof.
  intros H; apply sorted_on_ascending.
  intros p q Hp Hpq Hq.
  assert (Hm : forall m : nat, p + Z.of_nat m <= len s - 1 ->
                               get s p <= get s (p + Z.of_nat m)).
  { induction m as [|m IH]; intros Hb.
    - replace (p + Z.of_nat 0) with p by lia. lia.
    - specialize (IH ltac:(lia)).
      specialize (H (p + Z.of_nat m) ltac:(lia) ltac:(lia)).
      replace (p + Z.of_nat (S m)) with (p + Z.of_nat m + 1) by lia. lia. }
  specialize (Hm (Z.to_nat (q - p))).
  replace (p + Z.of_nat (Z.to_nat (q - p))) with q in Hm by lia. apply Hm; lia.
Qed.

(** Two ascending lists with the same elements are equal. *)
Lemma ascending_perm_unique (l1 l2 : list Z) :
  Permutation l1 l2 -> ascending l1 -> ascending l2 -> l1 = l2.
Proof.
  revert l2; induction l1 as [|a t1 IH]; intros l2 Hp H1 H2.
  - apply Permutation_nil in Hp. now subst.
  - destruct l2 as [|b t2].
    + apply Permutation_sym, Permutation_nil in Hp. discriminate.
    + apply StronglySorted_inv in H1 as [H1 Ha].
      apply StronglySorted_inv in H2 as [H2 Hb].
      rewrite Forall_forall in Ha, Hb.
      assert (a = b).
      { assert (Hin1 : In b (a :: t1))
          by (apply (Permutation_in _ (Permutation_sym Hp)); now left).
        assert (Hin2 : In a (b :: t2))
          by (apply (Permutation_in _ Hp); now left).
        destruct Hin1 as [?|Hin1]; [auto|].
        destruct Hin2 as [?|Hin2]; [auto|].
        specialize (Ha _ Hin1). specialize (Hb _ Hin2). lia. }
      subst b. f_equal. apply IH; auto.
      now apply Permutation_cons_inv in Hp.
Qed.

(** ** The five sorts on a whole list *)

Lemma sorts_whole (arr arr' : list Z) :
  sorts_range arr arr' 0 (len arr - 1) -> Permutation arr arr' /\ ascending arr'.
Proof.
  intros [Hl Hp _ Hs]; split; auto.
  apply sorted_on_ascending. now rewrite Hl.
Qed.

Lemma heapsort_sorts (fuel : nat) (arr : list Z) :
  (length arr <= fuel)%nat ->
  exists s, heapsort fuel arr = Done s /\ Permutation arr s /\ ascending s.
Proof.
  intros Hf. rewrite heapsort_eq.
  destruct (heapsort_partial_spec fuel arr 0 (len arr - 1)) as (s & E & Hs);
    try (unfold len; lia).
  exists s; split; [exact E|]. now apply sorts_whole.
Qed.

Lemma quicksort_hoare_sorts (fuel : nat) (arr : list Z) :
  (length arr < fuel)%nat ->
  exists s, quicksort_hoare fuel arr = Done s /\ Permutation arr s /\ ascending s.
Proof.
  intros Hf. unfold quicksort_hoare.
  destruct (quicksort_hoare_range_spec fuel arr 0 (len arr - 1)) as (s & E & Hs);
    try (unfold len; lia).
  exists s; split; [exact E|]. now apply sorts_whole.
Qed.

Lemma introsort_sorts (fuel : nat) (arr : list Z) :
  (length arr < fuel)%nat ->
  exists s, introsort fuel arr = Done s /\ Permutation arr s /\ ascending s.
Proof.
  intros Hf. unfold introsort.
  destruct (introsort_range_spec fuel arr 0 (len arr - 1)
              ((bit_length (len arr) - 1) * 2)) as (s & E & Hs);
    try (unfold len; lia).
  exists s; split; [exact E|]. now apply sorts_whole.
Qed.

(** ** Mergesort on the store *)

Lemma deref_app_old (st ext : store) (r : ref) :
  (r < length st)%nat -> deref (st ++ ext) r = deref st r.
Proof. intros H; unfold deref. now apply app_nth1. Qed.

Lemma deref_alloc_new (st : store) (v : list Z) :
  deref (st ++ [v]) (length st) = v.
Proof. unfold deref. now rewrite nth_middle. Qed.

Lemma mergesort_ref_spec (fuel : nat) :
  forall (st : store) (arr : ref),
    (arr < length st)%nat -> (length (deref st arr) < fuel)%nat ->
    exists st' r,
      mergesort_ref fuel st arr = Done (st', r) /\
      mergesort fuel (deref st arr) = Done (deref st' r) /\
      (exists ext, st' = st ++ ext) /\
      (r < length st')%nat /\
      (len (deref st arr) <= 1 -> r = arr) /\
      (1 < len (deref st arr) -> (length st <= r)%nat).
Proof.
  induction fuel as [|f IH]; intros st arr Harr Hf; [lia|].
  cbn [mergesort_ref mergesort].
  destruct (Z.leb_spec (len (deref st arr)) 1) as [Hle|Hgt].
  - exists st, arr. split; [reflexivity|]. split; [reflexivity|].
    split; [exists []; now rewrite app_nil_r|]. split; [exact Harr|].
    split; [auto|lia].
  - set (A := deref st arr) in *.
    assert (Hmid : 0 < len A / 2 < len A) by (Z.div_mod_to_equations; lia).
    unfold alloc.
    set (L := slice A None (Some (len A / 2))).
    assert (HL : (length L < f)%nat).
    { unfold L. rewrite slice_prefix by lia. rewrite length_firstn.
      unfold len in *. lia. }
    destruct (IH (st ++ [L]) (length st)) as (st2 & lt & -> & El & [e1 ->] & Hl & _).
    { rewrite length_app; cbn [length]; lia. }
    { now rewrite deref_alloc_new. }
    rewrite deref_alloc_new in El. rewrite El. cbn [bind].
    set (st2 := (st ++ [L]) ++ e1) in *.
    assert (E2 : deref st2 arr = A).
    { unfold st2. rewrite deref_app_old by (rewrite length_app; lia).
      now apply deref_app_old. }
    rewrite E2. set (R := slice A (Some (len A / 2)) None).
    assert (HR : (length R < f)%nat).
    { unfold R. rewrite slice_suffix by lia. rewrite length_skipn.
      unfold len in *. lia. }
    destruct (IH (st2 ++ [R]) (length st2)) as (st4 & rt & -> & Er & [e2 ->] & Hr & _).
    { rewrite length_app; cbn [length]; lia. }
    { now rewrite deref_alloc_new. }
    rewrite deref_alloc_new in Er. rewrite Er. cbn [bind].
    set (st4 := (st2 ++ [R]) ++ e2) in *.
    exists (st4 ++ [_merge (deref st4 lt) (deref st4 rt)]), (length st4).
    split; [reflexivity|].
    assert (Eleft : deref st4 lt = deref st2 lt).
    { unfold st4. rewrite <- app_assoc. now apply deref_app_old. }
    split.
    { rewrite deref_alloc_new, Eleft. reflexivity. }
    split.
    { exists ([L] ++ e1 ++ [R] ++ e2 ++ [_merge (deref st4 lt) (deref st4 rt)]).
      unfold st4, st2. now rewrite <- !app_assoc. }
    split; [rewrite length_app; cbn [length]; lia|].
    split; [lia|].
    intros _. unfold st4, st2. rewrite !length_app. lia.
Qed.

(** ** Cursors and driver steps *)

Lemma scan_up_ge (fuel : nat) :
  forall arr pivot i reads i' r',
    scan_up fuel arr pivot i reads = Done (i', r') -> i <= i'.
Proof.
  induction fuel as [|f IH]; intros arr pivot i reads i' r'; cbn [scan_up];
    [discriminate|].
  destruct (getitem arr i) as [x| |]; cbn [bind]; try discriminate.
  destruct (x <? pivot).
  - intros H; apply IH in H; lia.
  - intros [= <- _]; lia.
Qed.

Lemma scan_down_le (fuel : nat) :
  forall arr pivot j reads j' r',
    scan_down fuel arr pivot j reads = Done (j', r') -> j' <= j.
Proof.
  induction fuel as [|f IH]; intros arr pivot j reads j' r'; cbn [scan_down];
    [discriminate|].
  destruct (getitem arr j) as [x| |]; cbn [bind]; try discriminate.
  destruct (x >? pivot).
  - intros H; apply IH in H; lia.
  - intros [= <- _]; lia.
Qed.

(** A turn of the driver that partitions: the nested call is for the
    side with at most half of the elements, with the budget less 1; the
    loop goes on with the other side and the budget as it was. *)
Lemma introsort_turn_descend
  (fuel : nat) (arr : list Z) (low high d : Z) (a : list Z) (c1 c2 : call) :
  0 <= low -> low < high -> high < len arr ->
  (Z.to_nat (high - low + 2) <= fuel)%nat ->
  _introsort_turn fuel arr low high d = Done (Descend a c1 c2) ->
  16 < high - low + 1 /\ d <> 0 /\ len a = len arr /\
  exists j, low <= j < high /\
    ((j - low < high - j /\
      c1 = Call low j (d - 1) /\ c2 = Call (j + 1) high d) \/
     (high - j <= j - low /\
      c1 = Call (j + 1) high (d - 1) /\ c2 = Call low j d)).
Proof.
  intros Hlow Hlh Hhigh Hf. unfold _introsort_turn.
  destruct (Z.leb_spec (high - low + 1) 16) as [Hsmall|Hbig].
  { destruct (_insertion_sort fuel arr low high); cbn [bind]; discriminate. }
  destruct (Z.eqb_spec d 0) as [Hd|Hd].
  { destruct (_heapsort_partial fuel arr low high); cbn [bind]; discriminate. }
  unfold USE_NINTHERS.
  destruct (median_of_ninthers_in_range arr low high) as (k & Hk & ->); try lia.
  cbn [bind].
  destruct (partition_range_spec fuel arr low high (get arr k) k k)
    as (a0 & j & reads & -> & Hpart & Hj & Hjlt & _); try lia.
  cbn [bind]. specialize (Hjlt ltac:(lia)).
  assert (Hl0 := pt_len _ _ _ _ _ _ Hpart).
  destruct (Z.ltb_spec (j - low) (high - j)); intros [= <- <- <-];
    (split; [lia|]); (split; [exact Hd|]); (split; [exact Hl0|]);
    exists j; (split; [lia|]); [left|right]; auto.
Qed.

(** A turn of the driver that returns. *)
Lemma introsort_turn_return
  (fuel : nat) (arr : list Z) (low high d : Z) (r : routine) (a : list Z) :
  _introsort_turn fuel arr low high d = Done (Return r a) ->
  (r = InsertionSorter /\ high - low + 1 <= 16) \/
  (r = HeapFallback /\ 16 < high - low + 1 /\ d = 0).
Proof.
  unfold _introsort_turn.
  destruct (Z.leb_spec (high - low + 1) 16) as [Hsmall|Hbig].
  { destruct (_insertion_sort fuel arr low high); cbn [bind]; try discriminate.
    intros [= <- _]. now left. }
  destruct (Z.eqb_spec d 0) as [Hd|Hd].
  { destruct (_heapsort_partial fuel arr low high); cbn [bind]; try discriminate.
    intros [= <- _]. right; auto. }
  destruct (if USE_NINTHERS then _ else _) as [pivot| |]; cbn [bind];
    try discriminate.
  destruct (partition_loop _ _ _ _ _ _) as [[[a0 j] reads]| |]; cbn [bind];
    try discriminate.
  destruct (j - low <? high - j); discriminate.
Qed.

(** ** The heap fallback as seen from [introsort] *)

(** With [k] nested calls above it, a call holds at most [n / 2^k] elements;
    a budget that started at [2 * log2 n] and lost 1 per nested call only is
    then 0 on ranges of at most one element, which never get to the budget
    test. *)
Lemma fallback_not_reached (n L : Z) (fuel : nat) :
  0 <= L -> n < 2 ^ (L + 1) ->
  forall (arr : list Z) (low high d k : Z),
    0 <= low -> low <= high + 1 -> high < len arr ->
    (Z.to_nat (high - low + 2) <= fuel)%nat ->
    0 <= k -> d + k = 2 * L -> (high - low + 1) * 2 ^ k <= n ->
    reaches_fallback fuel arr low high d = false.
Proof.
  intros HL Hn.
  induction fuel as [|f IH]; intros arr low high d k Hlow Hlh Hhigh Hf Hk Hd Hsz;
    [reflexivity|].
  cbn [reaches_fallback].
  destruct (Z.ltb_spec low high) as [Hlt|Hge]; [|reflexivity].
  assert (Hpk : 0 < 2 ^ k) by (apply Z.pow_pos_nonneg; lia).
  destruct (Z.leb_spec (high - low + 1) 16) as [Hsmall|Hbig].
  { unfold _introsort_turn.
    destruct (Z.leb_spec (high - low + 1) 16); [|lia].
    destruct (insertion_sort_spec (S f) arr low high) as (a1 & -> & _); try lia.
    reflexivity. }
  destruct (Z.eq_dec d 0) as [Hd0|Hd0].
  { exfalso. assert (k = L + L) by lia. subst k.
    rewrite Z.pow_add_r in Hsz, Hpk by lia.
    replace (2 ^ (L + 1)) with (2 * 2 ^ L) in Hn
      by (rewrite Z.pow_add_r by lia; lia).
    assert (0 < 2 ^ L) by (apply Z.pow_pos_nonneg; lia). nia. }
  destruct (_introsort_turn (S f) arr low high d) as [[r a|a c1 c2]| |] eqn:E;
    try reflexivity.
  { apply introsort_turn_return in E. destruct E as [(-> & _)|(_ & _ & E)];
      [reflexivity|lia]. }
  destruct (introsort_turn_descend (S f) arr low high d a c1 c2)
    as (_ & _ & Hla & j & Hj & Hc); auto; try lia.
  assert (Hnested : forall l h, low <= l -> h <= high -> l <= h + 1 ->
                      2 * (h - l + 1) <= high - low + 1 ->
                      reaches_fallback f a l h (d - 1) = false).
  { intros l h H1 H2 H3 H4. apply (IH a l h (d - 1) (k + 1)); try lia.
    rewrite Z.pow_add_r by lia. change (2 ^ 1) with 2. nia. }
  assert (Hnext : forall a' l h, len a' = len a -> low <= l -> h <= high ->
                    l <= h + 1 -> h - l < high - low ->
                    reaches_fallback f a' l h d = false).
  { intros a' l h H0 H1 H2 H3 H4. apply (IH a' l h d k); try lia. nia. }
  destruct Hc as [(Hside & -> & ->)|(Hside & -> & ->)];
    cbn [c_low c_high c_maxdepth].
  - rewrite Hnested by lia. cbn [orb].
    destruct (introsort_range_spec f a low j (d - 1)) as (a1 & -> & H1); try lia.
    apply Hnext; try lia. rewrite (sr_len _ _ _ _ H1). reflexivity.
  - rewrite Hnested by lia. cbn [orb].
    destruct (introsort_range_spec f a (j + 1) high (d - 1)) as (a1 & -> & H1);
      try lia.
    apply Hnext; try lia. rewrite (sr_len _ _ _ _ H1). reflexivity.
Qed.

(** X14.  From [introsort] the heap fallback is never reached, whatever
    the list: the budget [2 * floor(log2 n)] is spent on nested calls
    only. *)
Theorem heap_fallback_unreachable (A : list Z) (fuel : nat) :
  (length A < fuel)%nat ->
  reaches_fallback fuel A 0 (len A - 1) ((bit_length (len A) - 1) * 2) = false.
Proof.
  intros Hf. destruct (Z.eq_dec (len A) 0) as [E0|Hpos].
  - destruct fuel; [reflexivity|]. cbn [reaches_fallback]. rewrite E0.
    reflexivity.
  - assert (Hn : 0 < len A) by (pose proof (len_nonneg A); lia).
    unfold bit_length. destruct (Z.eqb_spec (len A) 0); [lia|].
    rewrite Z.abs_eq by lia.
    destruct (Z.log2_spec (len A) Hn) as [_ Hub].
    apply (fallback_not_reached (len A) (Z.log2 (len A)) fuel
             (Z.log2_nonneg _)) with (k := 0); try (unfold len in *; lia).
Qed.

Lemma heap_fallback_unreachable_witness :
  (length (map Z.of_nat (seq 0 40)) < 41)%nat /\
  reaches_fallback 41 (map Z.of_nat (seq 0 40)) 0
    (len (map Z.of_nat (seq 0 40)) - 1)
    ((bit_length (len (map Z.of_nat (seq 0 40))) - 1) * 2) = false.
Proof.
  assert (H : (length (map Z.of_nat (seq 0 40)) < 41)%nat) by (vm_compute; lia).
  split; [exact H|].
  exact (heap_fallback_unreachable (map Z.of_nat (seq 0 40)) 41 H).
Defined.

Lemma median3_is_median (a b c : Z) :
  exists x y,
    Permutation [a; b; c] [x; median3 a b c; y] /\
    x <= median3 a b c <= y.
Proof.
  unfold median3.
  destruct (Z_le_gt_dec a b); destruct (Z_le_gt_dec b c);
    destruct (Z_le_gt_dec a c); try lia.
  - exists a, c. replace (Z.max _ _) with b by lia. split; [|lia].
    apply Permutation_refl.
  - exists a, b. replace (Z.max _ _) with c by lia. split; [|lia].
    apply perm_skip, perm_swap.
  - exists c, b. replace (Z.max _ _) with a by lia. split; [|lia].
    eapply perm_trans; [apply perm_skip, perm_swap|apply perm_swap].
  - exists b, c. replace (Z.max _ _) with a by lia. split; [|lia].
    apply perm_swap.
  - exists b, a. replace (Z.max _ _) with c by lia. split; [|lia].
    eapply perm_trans; [apply perm_swap|apply perm_skip, perm_swap].
  - exists c, a. replace (Z.max _ _) with b by lia. split; [|lia].
    eapply perm_trans; [apply perm_swap|].
    eapply perm_trans; [apply perm_skip, perm_swap|apply perm_swap].
Qed.

(** * The stated properties *)

(** C1.  For every list [A] of integers, [introsort(A)] returns a list that
    is a permutation of [A] and in which [arr[k] <= arr[k+1]] holds at every
    pair of adjacent indices. *)
Theorem introsort_sorted_permutation (A : list Z) (fuel : nat) :
  (length A < fuel)%nat ->
  exists s,
    introsort fuel A = Done s /\ Permutation A s /\
    forall k, 0 <= k -> k + 1 < len s -> get s k <= get s (k + 1).
Proof.
  intros Hf. destruct (introsort_sorts fuel A Hf) as (s & E & Hp & Hs).
  exists s. split; [exact E|]. split; [exact Hp|].
  exact (ascending_non_decreasing s Hs).
Qed.

Lemma introsort_sorted_permutation_witness :
  (length [17; 16; 15; 14; 13; 12; 11; 10; 9; 8; 7; 6; 5; 4; 3; 2; 1] < 18)%nat /\
  exists s,
    introsort 18 [17; 16; 15; 14; 13; 12; 11; 10; 9; 8; 7; 6; 5; 4; 3; 2; 1]
    = Done s /\
    Permutation [17; 16; 15; 14; 13; 12; 11; 10; 9; 8; 7; 6; 5; 4; 3; 2; 1] s /\
    forall k, 0 <= k -> k + 1 < len s -> get s k <= get s (k + 1).
Proof.
  split; [cbn; lia|].
  apply (introsort_sorted_permutation
           [17; 16; 15; 14; 13; 12; 11; 10; 9; 8; 7; 6; 5; 4; 3; 2; 1] 18).
  cbn; lia.
Defined.

(** C2.  For every list [A], heapsort, quicksort_hoare, mergesort,
    mergesort_bottom_up and introsort, each run on its own copy of [A],
    return the same list: the ascending arrangement of the elements of
    [A]. *)
Theorem five_sorts_agree (A : list Z) (fuel : nat) :
  (length A < fuel)%nat ->
  exists s,
    heapsort fuel A = Done s /\
    quicksort_hoare fuel A = Done s /\
    mergesort fuel A = Done s /\
    mergesort_bottom_up fuel A = Done s /\
    introsort fuel A = Done s /\
    Permutation A s /\ non_decreasing s.
Proof.
  intros Hf.
  destruct (heapsort_sorts fuel A ltac:(lia)) as (s1 & E1 & P1 & S1).
  destruct (quicksort_hoare_sorts fuel A Hf) as (s2 & E2 & P2 & S2).
  destruct (mergesort_spec fuel A Hf) as (s3 & E3 & P3 & S3).
  destruct (mergesort_bottom_up_spec fuel A Hf) as (s4 & E4 & P4 & S4).
  destruct (introsort_sorts fuel A Hf) as (s5 & E5 & P5 & S5).
  assert (Hu : forall t, Permutation A t -> ascending t -> t = s1).
  { intros t Pt St. apply ascending_perm_unique; auto.
    eapply Permutation_trans; [apply Permutation_sym; exact Pt|exact P1]. }
  rewrite (Hu s2 P2 S2) in E2. rewrite (Hu s3 P3 S3) in E3.
  rewrite (Hu s4 P4 S4) in E4. rewrite (Hu s5 P5 S5) in E5.
  exists s1. repeat (split; [assumption|]).
  now apply ascending_non_decreasing.
Qed.

Lemma five_sorts_agree_witness :
  (length [5; 3; 8; 3; 9; 1] < 7)%nat /\
  exists s,
    heapsort 7 [5; 3; 8; 3; 9; 1] = Done s /\
    quicksort_hoare 7 [5; 3; 8; 3; 9; 1] = Done s /\
    mergesort 7 [5; 3; 8; 3; 9; 1] = Done s /\
    mergesort_bottom_up 7 [5; 3; 8; 3; 9; 1] = Done s /\
    introsort 7 [5; 3; 8; 3; 9; 1] = Done s /\
    Permutation [5; 3; 8; 3; 9; 1] s /\ non_decreasing s.
Proof.
  split; [cbn; lia|].
  apply (five_sorts_agree [5; 3; 8; 3; 9; 1] 7). cbn; lia.
Defined.

(** C3 (the code departs from it).  After partitioning, the driver calls
    itself on the smaller side with the depth budget decremented by 1, but
    goes round its loop on the larger side with the budget unchanged.  On
    the 17 descending values, whose initial budget is 8, the first turn
    partitions at [j = 11]: the nested call is for [12..16] with budget 7
    and the loop continues on [0..11] with budget 8, not 7.  (With budget
    0 the same range would take the heap fallback, which the run from
    [introsort] never reaches.) *)
Theorem introsort_loop_back_keeps_budget :
  (bit_length (len [17; 16; 15; 14; 13; 12; 11; 10; 9; 8; 7; 6; 5; 4; 3; 2; 1]) - 1)
  * 2 = 8 /\
  _introsort_turn 18
    [17; 16; 15; 14; 13; 12; 11; 10; 9; 8; 7; 6; 5; 4; 3; 2; 1] 0 16 8
  = Done (Descend [1; 2; 3; 4; 5; 12; 11; 10; 9; 8; 7; 6; 13; 14; 15; 16; 17]
            (Call 12 16 7) (Call 0 11 8)) /\
  reaches_fallback 18
    [17; 16; 15; 14; 13; 12; 11; 10; 9; 8; 7; 6; 5; 4; 3; 2; 1] 0 16 0 = true /\
  reaches_fallback 18
    [17; 16; 15; 14; 13; 12; 11; 10; 9; 8; 7; 6; 5; 4; 3; 2; 1] 0 16 8 = false.
Proof. repeat split; vm_compute; reflexivity. Qed.

(** C4 as stated fails: with depth budget 0 the two-element range [0..1]
    is handled by the insertion sorter, not by the heap fallback. *)
Lemma budget_zero_small_range_not_heap :
  ~ exists a,
      _introsort_turn 4 [2; 1] 0 1 0 = Done (Return HeapFallback a).
Proof. intros [a H]. vm_compute in H. discriminate. Qed.

(** C4, amended.  A range [low < high] reached with depth budget 0 is
    sorted by [_heapsort_partial] when it has more than 16 elements, and
    by [_insertion_sort] when it has at most 16: the size test comes
    first. *)
Theorem budget_zero_dispatch (fuel : nat) (arr : list Z) (low high : Z) :
  0 <= low -> low < high -> high < len arr ->
  (Z.to_nat (high - low + 1) <= fuel)%nat ->
  exists a,
    _introsort fuel arr low high 0 = Done a /\
    sorted_on a low high /\ Permutation arr a /\
    (16 < high - low + 1 ->
       _heapsort_partial fuel arr low high = Done a /\
       _introsort_turn fuel arr low high 0 = Done (Return HeapFallback a)) /\
    (high - low + 1 <= 16 ->
       _insertion_sort fuel arr low high = Done a /\
       _introsort_turn fuel arr low high 0 = Done (Return InsertionSorter a)).
Proof.
  intros Hlow Hlh Hhigh Hf.
  destruct fuel as [|f]; [lia|]. cbn [_introsort].
  destruct (Z.ltb_spec low high); [|lia].
  unfold _introsort_turn.
  destruct (Z.leb_spec (high - low + 1) 16) as [Hsmall|Hbig].
  - destruct (insertion_sort_spec (S f) arr low high) as (a & -> & Hs); try lia.
    cbn [bind]. exists a. split; [reflexivity|].
    split; [exact (sr_sorted _ _ _ _ Hs)|]. split; [exact (sr_perm _ _ _ _ Hs)|].
    split; [lia|auto].
  - cbn [Z.eqb].
    destruct (heapsort_partial_spec (S f) arr low high) as (a & -> & Hs); try lia.
    cbn [bind]. exists a. split; [reflexivity|].
    split; [exact (sr_sorted _ _ _ _ Hs)|]. split; [exact (sr_perm _ _ _ _ Hs)|].
    split; [auto|lia].
Qed.

Lemma budget_zero_dispatch_witness :
  0 <= 0 /\ 0 < 16 /\
  16 < len [17; 16; 15; 14; 13; 12; 11; 10; 9; 8; 7; 6; 5; 4; 3; 2; 1] /\
  (Z.to_nat (16 - 0 + 1) <= 17)%nat /\
  exists a,
    _introsort 17 [17; 16; 15; 14; 13; 12; 11; 10; 9; 8; 7; 6; 5; 4; 3; 2; 1]
      0 16 0 = Done a /\
    sorted_on a 0 16 /\
    Permutation [17; 16; 15; 14; 13; 12; 11; 10; 9; 8; 7; 6; 5; 4; 3; 2; 1] a /\
    (16 < 16 - 0 + 1 ->
       _heapsort_partial 17
         [17; 16; 15; 14; 13; 12; 11; 10; 9; 8; 7; 6; 5; 4; 3; 2; 1] 0 16
       = Done a /\
       _introsort_turn 17
         [17; 16; 15; 14; 13; 12; 11; 10; 9; 8; 7; 6; 5; 4; 3; 2; 1] 0 16 0
       = Done (Return HeapFallback a)) /\
    (16 - 0 + 1 <= 16 ->
       _insertion_sort 17
         [17; 16; 15; 14; 13; 12; 11; 10; 9; 8; 7; 6; 5; 4; 3; 2; 1] 0 16
       = Done a /\
       _introsort_turn 17
         [17; 16; 15; 14; 13; 12; 11; 10; 9; 8; 7; 6; 5; 4; 3; 2; 1] 0 16 0
       = Done (Return InsertionSorter a)).
Proof.
  assert (H1 : 0 <= 0) by lia.
  assert (H2 : 0 < 16) by lia.
  assert (H3 : 16 < len [17; 16; 15; 14; 13; 12; 11; 10; 9; 8; 7; 6; 5; 4; 3; 2; 1])
    by (vm_compute; reflexivity).
  assert (H4 : (Z.to_nat (16 - 0 + 1) <= 17)%nat) by (vm_compute; lia).
  repeat (split; [assumption|]).
  exact (budget_zero_dispatch 17
           [17; 16; 15; 14; 13; 12; 11; 10; 9; 8; 7; 6; 5; 4; 3; 2; 1] 0 16
           H1 H2 H3 H4).
Defined.

(** C5.  For a list [arr], bounds [low < high] within it and a pivot value
    occurring in [arr[low..high]], the partition loop returns a split index
    [j] such that every element at an index of [low..j] is [<= pivot],
    every element at an index of [j+1..high] is [>= pivot], and the list is
    a permutation of what it was; so does [_hoare_partition], whose pivot
    is the middle element. *)
Theorem hoare_partition_splits
  (fuel : nat) (arr : list Z) (low high pivot : Z) :
  0 <= low -> low < high -> high < len arr ->
  (exists k, low <= k <= high /\ get arr k = pivot) ->
  (Z.to_nat (high - low + 2) <= fuel)%nat ->
  (exists arr' j reads,
     partition_loop fuel arr pivot (low - 1) (high + 1) [] = Done (arr', j, reads) /\
     low <= j <= high /\
     (forall k, low <= k <= j -> get arr' k <= pivot) /\
     (forall k, j < k <= high -> pivot <= get arr' k) /\
     Permutation arr arr') /\
  (exists arr' j,
     _hoare_partition fuel arr low high = Done (arr', j) /\
     low <= j <= high /\
     (forall k, low <= k <= j -> get arr' k <= get arr ((low + high) / 2)) /\
     (forall k, j < k <= high -> get arr ((low + high) / 2) <= get arr' k) /\
     Permutation arr arr').
Proof.
  intros Hlow Hlh Hhigh (k & Hk & Ek) Hf. split.
  - destruct (partition_range_spec fuel arr low high pivot k k)
      as (arr' & j & reads & E & [P1 P2 P3 P4 P5] & Hj & _ & _); try lia.
    exists arr', j, reads. auto 6.
  - destruct (hoare_partition_spec fuel arr low high)
      as (arr' & j & E & [P1 P2 P3 P4 P5] & Hj); try lia.
    exists arr', j. split; [exact E|]. split; [lia|]. auto.
Qed.

Lemma hoare_partition_splits_witness :
  0 <= 1 /\ 1 < 5 /\ 5 < len [9; 4; 7; 4; 1; 8; 0] /\
  (exists k, 1 <= k <= 5 /\ get [9; 4; 7; 4; 1; 8; 0] k = 4) /\
  (Z.to_nat (5 - 1 + 2) <= 6)%nat /\
  ((exists arr' j reads,
      partition_loop 6 [9; 4; 7; 4; 1; 8; 0] 4 (1 - 1) (5 + 1) []
      = Done (arr', j, reads) /\
      1 <= j <= 5 /\
      (forall k, 1 <= k <= j -> get arr' k <= 4) /\
      (forall k, j < k <= 5 -> 4 <= get arr' k) /\
      Permutation [9; 4; 7; 4; 1; 8; 0] arr') /\
   (exists arr' j,
      _hoare_partition 6 [9; 4; 7; 4; 1; 8; 0] 1 5 = Done (arr', j) /\
      1 <= j <= 5 /\
      (forall k, 1 <= k <= j ->
                 get arr' k <= get [9; 4; 7; 4; 1; 8; 0] ((1 + 5) / 2)) /\
      (forall k, j < k <= 5 ->
                 get [9; 4; 7; 4; 1; 8; 0] ((1 + 5) / 2) <= get arr' k) /\
      Permutation [9; 4; 7; 4; 1; 8; 0] arr')).
Proof.
  assert (H1 : 0 <= 1) by lia.
  assert (H2 : 1 < 5) by lia.
  assert (H3 : 5 < len [9; 4; 7; 4; 1; 8; 0]) by (vm_compute; reflexivity).
  assert (H4 : exists k, 1 <= k <= 5 /\ get [9; 4; 7; 4; 1; 8; 0] k = 4)
    by (exists 3; split; [lia|reflexivity]).
  assert (H5 : (Z.to_nat (5 - 1 + 2) <= 6)%nat) by (vm_compute; lia).
  repeat (split; [assumption|]).
  exact (hoare_partition_splits 6 [9; 4; 7; 4; 1; 8; 0] 1 5 4 H1 H2 H3 H4 H5).
Defined.

(** C6.  During the partition of [low..high] around a pivot drawn from
    [arr[low..high]], every index at which a scan loop reads [arr[i]] or
    [arr[j]] lies in [low..high]: nothing outside the range is read. *)
Theorem partition_scans_stay_in_range
  (fuel : nat) (arr : list Z) (low high pivot : Z) :
  0 <= low -> low < high -> high < len arr ->
  (exists k, low <= k <= high /\ get arr k = pivot) ->
  (Z.to_nat (high - low + 2) <= fuel)%nat ->
  exists arr' j reads,
    partition_loop fuel arr pivot (low - 1) (high + 1) [] = Done (arr', j, reads) /\
    forall x, In x reads -> low <= x <= high.
Proof.
  intros Hlow Hlh Hhigh (k & Hk & Ek) Hf.
  destruct (partition_range_spec fuel arr low high pivot k k)
    as (arr' & j & reads & E & _ & _ & _ & Hr); try lia.
  exists arr', j, reads. split; [exact E|exact Hr].
Qed.

Lemma partition_scans_stay_in_range_witness :
  0 <= 1 /\ 1 < 5 /\ 5 < len [9; 4; 7; 4; 1; 8; 0] /\
  (exists k, 1 <= k <= 5 /\ get [9; 4; 7; 4; 1; 8; 0] k = 4) /\
  (Z.to_nat (5 - 1 + 2) <= 6)%nat /\
  exists arr' j reads,
    partition_loop 6 [9; 4; 7; 4; 1; 8; 0] 4 (1 - 1) (5 + 1) []
    = Done (arr', j, reads) /\
    forall x, In x reads -> 1 <= x <= 5.
Proof.
  assert (H1 : 0 <= 1) by lia.
  assert (H2 : 1 < 5) by lia.
  assert (H3 : 5 < len [9; 4; 7; 4; 1; 8; 0]) by (vm_compute; reflexivity).
  assert (H4 : exists k, 1 <= k <= 5 /\ get [9; 4; 7; 4; 1; 8; 0] k = 4)
    by (exists 3; split; [lia|reflexivity]).
  assert (H5 : (Z.to_nat (5 - 1 + 2) <= 6)%nat) by (vm_compute; lia).
  repeat (split; [assumption|]).
  exact (partition_scans_stay_in_range 6 [9; 4; 7; 4; 1; 8; 0] 1 5 4
           H1 H2 H3 H4 H5).
Defined.

(** C7.  [introsort] returns for every list, lists of equal elements
    included: each turn of the partition loop moves the up-cursor up and
    the down-cursor down, and each turn of the driver either returns or
    goes on with a strictly smaller range. *)
Theorem introsort_terminates (A : list Z) (fuel : nat) :
  (length A < fuel)%nat ->
  (exists s, introsort fuel A = Done s) /\
  (forall f arr pivot i j reads i1 r1 j1 r2,
     scan_up f arr pivot (i + 1) reads = Done (i1, r1) ->
     scan_down f arr pivot (j - 1) r1 = Done (j1, r2) ->
     i < i1 /\ j1 < j) /\
  (forall f arr low high d a c1 c2,
     0 <= low -> low < high -> high < len arr ->
     (Z.to_nat (high - low + 2) <= f)%nat ->
     _introsort_turn f arr low high d = Done (Descend a c1 c2) ->
     low <= c_low c1 /\ c_high c1 <= high /\
     c_high c1 - c_low c1 < high - low /\
     low <= c_low c2 /\ c_high c2 <= high /\
     c_high c2 - c_low c2 < high - low).
Proof.
  intros Hf. split; [|split].
  - destruct (introsort_sorts fuel A Hf) as (s & E & _). now exists s.
  - intros f arr pivot i j reads i1 r1 j1 r2 Hu Hd.
    apply scan_up_ge in Hu. apply scan_down_le in Hd. lia.
  - intros f arr low high d a c1 c2 H1 H2 H3 H4 H5.
    destruct (introsort_turn_descend f arr low high d a c1 c2 H1 H2 H3 H4 H5)
      as (_ & _ & _ & j & Hj & [(Hs & -> & ->)|(Hs & -> & ->)]);
      cbn [c_low c_high]; lia.
Qed.

Lemma introsort_terminates_witness :
  (length (repeat 7 40) < 41)%nat /\
  ((exists s, introsort 41 (repeat 7 40) = Done s) /\
   (forall f arr pivot i j reads i1 r1 j1 r2,
      scan_up f arr pivot (i + 1) reads = Done (i1, r1) ->
      scan_down f arr pivot (j - 1) r1 = Done (j1, r2) ->
      i < i1 /\ j1 < j) /\
   (forall f arr low high d a c1 c2,
      0 <= low -> low < high -> high < len arr ->
      (Z.to_nat (high - low + 2) <= f)%nat ->
      _introsort_turn f arr low high d = Done (Descend a c1 c2) ->
      low <= c_low c1 /\ c_high c1 <= high /\
      c_high c1 - c_low c1 < high - low /\
      low <= c_low c2 /\ c_high c2 <= high /\
      c_high c2 - c_low c2 < high - low)).
Proof.
  assert (H : (length (repeat 7 40) < 41)%nat) by (vm_compute; lia).
  split; [exact H|].
  exact (introsort_terminates (repeat 7 40) 41 H).
Defined.

(** C8.  On a range [low..high] of the list, [_median_of_ninthers] returns
    [arr[(low+high)/2]] (floor division) when the range has fewer than 9
    elements; otherwise, with [step = max(size // 9, 1)], it returns the
    median of the medians of the three consecutive groups of three among
    the nine samples [arr[low + i*step]], [i = 0..8], all of which lie in
    the range. *)
Theorem median_of_ninthers_as_specified (arr : list Z) (low high : Z) :
  0 <= low -> low <= high -> high < len arr ->
  (high - low + 1 < 9 ->
     _median_of_ninthers arr low high = Done (get arr ((low + high) / 2))) /\
  (9 <= high - low + 1 ->
     ninther_step low high = Z.max ((high - low + 1) / 9) 1 /\
     (forall i, 0 <= i <= 8 ->
        ninther_sample arr low high i = get arr (low + i * ninther_step low high) /\
        low <= low + i * ninther_step low high <= high) /\
     _median_of_ninthers arr low high
     = Done (median3
               (median3 (ninther_sample arr low high 0)
                        (ninther_sample arr low high 1)
                        (ninther_sample arr low high 2))
               (median3 (ninther_sample arr low high 3)
                        (ninther_sample arr low high 4)
                        (ninther_sample arr low high 5))
               (median3 (ninther_sample arr low high 6)
                        (ninther_sample arr low high 7)
                        (ninther_sample arr low high 8)))) /\
  (forall a b c, exists x y,
     Permutation [a; b; c] [x; median3 a b c; y] /\ x <= median3 a b c <= y).
Proof.
  intros Hlow Hlh Hhigh. split; [|split; [|apply median3_is_median]].
  - intros Hsmall. unfold _median_of_ninthers.
    destruct (Z.ltb_spec (high - low + 1) 9); [|lia].
    rewrite shr1. apply getitem_in. Z.div_mod_to_equations; lia.
  - intros Hbig. split; [reflexivity|].
    assert (Hstep : 1 <= ninther_step low high /\
                    8 * ninther_step low high <= high - low)
      by (unfold ninther_step; Z.div_mod_to_equations; lia).
    split.
    + intros i Hi. split; [reflexivity|nia].
    + rewrite median_of_ninthers_refines. unfold median_of_ninthers_spec.
      destruct (Z.ltb_spec (high - low + 1) 9); [lia|].
      fold (ninther_step low high). cbn [comprehension].
      rewrite !getitem_in by lia. reflexivity.
Qed.

Lemma median_of_ninthers_as_specified_witness :
  0 <= 1 /\ 1 <= 19 /\ 19 < len (map Z.of_nat (rev (seq 0 21))) /\
  (19 - 1 + 1 < 9 ->
     _median_of_ninthers (map Z.of_nat (rev (seq 0 21))) 1 19
     = Done (get (map Z.of_nat (rev (seq 0 21))) ((1 + 19) / 2))) /\
  (9 <= 19 - 1 + 1 ->
     ninther_step 1 19 = Z.max ((19 - 1 + 1) / 9) 1 /\
     (forall i, 0 <= i <= 8 ->
        ninther_sample (map Z.of_nat (rev (seq 0 21))) 1 19 i
        = get (map Z.of_nat (rev (seq 0 21))) (1 + i * ninther_step 1 19) /\
        1 <= 1 + i * ninther_step 1 19 <= 19) /\
     _median_of_ninthers (map Z.of_nat (rev (seq 0 21))) 1 19
     = Done (median3
               (median3 (ninther_sample (map Z.of_nat (rev (seq 0 21))) 1 19 0)
                        (ninther_sample (map Z.of_nat (rev (seq 0 21))) 1 19 1)
                        (ninther_sample (map Z.of_nat (rev (seq 0 21))) 1 19 2))
               (median3 (ninther_sample (map Z.of_nat (rev (seq 0 21))) 1 19 3)
                        (ninther_sample (map Z.of_nat (rev (seq 0 21))) 1 19 4)
                        (ninther_sample (map Z.of_nat (rev (seq 0 21))) 1 19 5))
               (median3 (ninther_sample (map Z.of_nat (rev (seq 0 21))) 1 19 6)
                        (ninther_sample (map Z.of_nat (rev (seq 0 21))) 1 19 7)
                        (ninther_sample (map Z.of_nat (rev (seq 0 21))) 1 19 8)))) /\
  (forall a b c, exists x y,
     Permutation [a; b; c] [x; median3 a b c; y] /\ x <= median3 a b c <= y).
Proof.
  assert (H1 : 0 <= 1) by lia.
  assert (H2 : 1 <= 19) by lia.
  assert (H3 : 19 < len (map Z.of_nat (rev (seq 0 21))))
    by (vm_compute; reflexivity).
  repeat (split; [assumption|]).
  exact (median_of_ninthers_as_specified (map Z.of_nat (rev (seq 0 21))) 1 19
           H1 H2 H3).
Defined.

(** C9.  [mergesort(A)] returns a non-decreasing permutation of [A] and
    leaves [A] (indeed every list that existed before the call) as it was;
    when [A] has more than one element the list returned is a new
    object. *)
Theorem mergesort_leaves_input_unchanged (fuel : nat) (st : store) (A : ref) :
  (A < length st)%nat -> (length (deref st A) < fuel)%nat ->
  exists st' r,
    mergesort_ref fuel st A = Done (st', r) /\
    (forall q, (q < length st)%nat -> deref st' q = deref st q) /\
    Permutation (deref st A) (deref st' r) /\
    non_decreasing (deref st' r) /\
    (1 < len (deref st A) -> (length st <= r)%nat).
Proof.
  intros HA Hf.
  destruct (mergesort_ref_spec fuel st A HA Hf)
    as (st' & r & E & Em & [ext ->] & Hr & _ & Hnew).
  destruct (mergesort_spec fuel (deref st A) Hf) as (s & Es & Hp & Hs).
  rewrite Es in Em. injection Em as Em. subst s.
  exists (st ++ ext), r. split; [exact E|].
  split; [intros q Hq; now apply deref_app_old|].
  split; [exact Hp|].
  split; [now apply ascending_non_decreasing|exact Hnew].
Qed.

Lemma mergesort_leaves_input_unchanged_witness :
  (1 < length example_store)%nat /\
  (length (deref example_store 1%nat) < 7)%nat /\
  exists st' r,
    mergesort_ref 7 example_store 1%nat = Done (st', r) /\
    (forall q, (q < length example_store)%nat ->
               deref st' q = deref example_store q) /\
    Permutation (deref example_store 1%nat) (deref st' r) /\
    non_decreasing (deref st' r) /\
    (1 < len (deref example_store 1%nat) -> (length example_store <= r)%nat).
Proof.
  assert (H1 : (1 < length example_store)%nat) by (vm_compute; lia).
  assert (H2 : (length (deref example_store 1%nat) < 7)%nat) by (vm_compute; lia).
  repeat (split; [assumption|]).
  exact (mergesort_leaves_input_unchanged 7 example_store 1%nat H1 H2).
Defined.

(** C10.  On valid bounds [0 <= low <= high < len(arr)], [_insertion_sort]
    and [_heapsort_partial] leave every element at an index outside
    [low..high] as it was. *)
Theorem range_sorts_frame (fuel : nat) (arr : list Z) (low high : Z) :
  0 <= low -> low <= high -> high < len arr ->
  (Z.to_nat (high - low + 1) <= fuel)%nat ->
  exists a1 a2,
    _insertion_sort fuel arr low high = Done a1 /\
    _heapsort_partial fuel arr low high = Done a2 /\
    len a1 = len arr /\ len a2 = len arr /\
    forall k, 0 <= k < len arr -> k < low \/ high < k ->
              get a1 k = get arr k /\ get a2 k = get arr k.
Proof.
  intros Hlow Hlh Hhigh Hf.
  destruct (insertion_sort_spec fuel arr low high) as (a1 & E1 & [L1 _ F1 _]);
    try lia.
  destruct (heapsort_partial_spec fuel arr low high) as (a2 & E2 & [L2 _ F2 _]);
    try lia.
  exists a1, a2. repeat (split; [assumption|]).
  intros k Hk Hout. split; [apply F1|apply F2]; auto.
Qed.

Lemma range_sorts_frame_witness :
  0 <= 2 /\ 2 <= 5 /\ 5 < len [9; 8; 7; 6; 5; 4; 3; 2] /\
  (Z.to_nat (5 - 2 + 1) <= 4)%nat /\
  exists a1 a2,
    _insertion_sort 4 [9; 8; 7; 6; 5; 4; 3; 2] 2 5 = Done a1 /\
    _heapsort_partial 4 [9; 8; 7; 6; 5; 4; 3; 2] 2 5 = Done a2 /\
    len a1 = len [9; 8; 7; 6; 5; 4; 3; 2] /\
    len a2 = len [9; 8; 7; 6; 5; 4; 3; 2] /\
    forall k, 0 <= k < len [9; 8; 7; 6; 5; 4; 3; 2] -> k < 2 \/ 5 < k ->
              get a1 k = get [9; 8; 7; 6; 5; 4; 3; 2] k /\
              get a2 k = get [9; 8; 7; 6; 5; 4; 3; 2] k.
Proof.
  assert (H1 : 0 <= 2) by lia.
  assert (H2 : 2 <= 5) by lia.
  assert (H3 : 5 < len [9; 8; 7; 6; 5; 4; 3; 2]) by (vm_compute; reflexivity).
  assert (H4 : (Z.to_nat (5 - 2 + 1) <= 4)%nat) by (vm_compute; lia).
  repeat (split; [assumption|]).
  exact (range_sorts_frame 4 [9; 8; 7; 6; 5; 4; 3; 2] 2 5 H1 H2 H3 H4).
Defined.

(** ** Two sorts of the same range *)

Lemma frame_prefix (a a' : list Z) (lo hi : Z) :
  0 <= lo -> len a' = len a -> same_outside a a' lo hi ->
  firstn (Z.to_nat lo) a' = firstn (Z.to_nat lo) a.
Proof.
  intros Hlo Hl Hfr. assert (Hl' : length a' = length a) by (unfold len in Hl; lia).
  apply list_eq_get.
  - rewrite !length_firstn; lia.
  - intros k Hk. rewrite length_firstn in Hk. rewrite !nth_firstn.
    destruct (Nat.ltb_spec k (Z.to_nat lo)); auto.
    specialize (Hfr (Z.of_nat k)). unfold get, len in Hfr.
    rewrite Nat2Z.id in Hfr. apply Hfr; lia.
Qed.

Lemma frame_suffix (a a' : list Z) (lo hi : Z) :
  -1 <= hi -> len a' = len a -> same_outside a a' lo hi ->
  skipn (Z.to_nat (hi + 1)) a' = skipn (Z.to_nat (hi + 1)) a.
Proof.
  intros Hhi Hl Hfr. assert (Hl' : length a' = length a) by (unfold len in Hl; lia).
  apply list_eq_get.
  - rewrite !length_skipn; lia.
  - intros k Hk. rewrite length_skipn in Hk. rewrite !nth_skipn.
    specialize (Hfr (Z.of_nat (Z.to_nat (hi + 1) + k))). unfold get, len in Hfr.
    rewrite Nat2Z.id in Hfr. apply Hfr; lia.
Qed.

Lemma sorted_on_seg (a : list Z) (lo hi : Z) :
  0 <= lo -> lo <= hi + 1 -> hi < len a ->
  sorted_on a lo hi -> ascending (seg a lo hi).
Proof.
  intros Hlo Hlh Hhi Hs. apply sorted_on_ascending.
  rewrite len_seg by lia. intros p q Hp Hpq Hq.
  replace p with (lo + p - lo) by lia. replace q with (lo + q - lo) by lia.
  rewrite !(get_seg a lo hi) by lia. apply Hs; lia.
Qed.

Lemma sorts_range_unique (arr a1 a2 : list Z) (lo hi : Z) :
  0 <= lo -> lo <= hi + 1 -> hi < len arr ->
  sorts_range arr a1 lo hi -> sorts_range arr a2 lo hi -> a1 = a2.
Proof.
  intros Hlo Hlh Hhi [L1 P1 F1 S1] [L2 P2 F2 S2].
  rewrite (seg_split a1 lo hi Hlo Hlh), (seg_split a2 lo hi Hlo Hlh).
  rewrite (frame_prefix arr a1 lo hi), (frame_prefix arr a2 lo hi) by auto.
  rewrite (frame_suffix arr a1 lo hi), (frame_suffix arr a2 lo hi) by (auto; lia).
  f_equal. f_equal.
  apply ascending_perm_unique.
  - eapply Permutation_trans.
    + apply Permutation_sym, (range_perm arr a1 lo hi); auto.
    + apply (range_perm arr a2 lo hi); auto.
  - apply sorted_on_seg; auto; lia.
  - apply sorted_on_seg; auto; lia.
Qed.

(** ** A range that runs past the end *)

Lemma for_each_app {S : Type} (xs ys : list Z) (body : Z -> S -> outcome S) (s : S) :
  for_each (xs ++ ys) body s = (t <- for_each xs body s ;; for_each ys body t).
Proof.
  revert s; induction xs as [|x xs IH]; intros s; cbn [app for_each bind]; auto.
  destruct (body x s) as [t| |]; cbn [bind]; auto.
Qed.

Lemma py_range_app (a b c : Z) :
  a <= b -> b <= c -> py_range a c = py_range a b ++ py_range b c.
Proof.
  intros Hab Hbc. remember (Z.to_nat (b - a)) as n eqn:Hn.
  revert a Hab Hn; induction n as [|n IH]; intros a Hab Hn.
  - replace a with b by lia. now rewrite (py_range_nil b b) by lia.
  - rewrite (py_range_cons a c), (py_range_cons a b) by lia.
    cbn [app]. f_equal. apply IH; lia.
Qed.

Lemma getitem_past_end (arr : list Z) (i : Z) :
  len arr <= i -> getitem arr i = Raise IndexError.
Proof.
  intros H; unfold getitem, norm_index. pose proof (len_nonneg arr).
  destruct (Z.leb_spec 0 i); destruct (Z.ltb_spec i (len arr));
    destruct (Z.leb_spec (- len arr) i); destruct (Z.ltb_spec i 0);
    cbn [andb]; auto; lia.
Qed.

Lemma insertion_sort_past_end (fuel : nat) (arr : list Z) (low high : Z) :
  0 <= low -> low < high -> len arr <= high ->
  (Z.to_nat (len arr - low) <= fuel)%nat ->
  _insertion_sort fuel arr low high = Raise IndexError.
Proof.
  intros Hlow Hlh Hhigh Hf. unfold _insertion_sort.
  destruct (Z_le_gt_dec (len arr) low) as [Hout|Hin].
  - rewrite py_range_cons by lia. cbn [for_each].
    rewrite getitem_past_end by lia. reflexivity.
  - rewrite (py_range_app (low + 1) (len arr) (high + 1)) by lia.
    rewrite for_each_app.
    destruct (insertion_sort_spec fuel arr low (len arr - 1)) as (a1 & E & H1);
      try lia.
    unfold _insertion_sort in E.
    replace (len arr - 1 + 1) with (len arr) in E by lia.
    rewrite E. cbn [bind].
    rewrite py_range_cons by lia. cbn [for_each].
    rewrite getitem_past_end by (rewrite (sr_len _ _ _ _ H1); lia). reflexivity.
Qed.

(** ** Pivots *)

Lemma median_of_three_spec (arr : list Z) (low high : Z) :
  0 <= low -> low <= high -> high < len arr ->
  _median_of_three arr low high
  = Done (median3 (get arr low) (get arr ((low + high) / 2)) (get arr high)).
Proof.
  intros Hlow Hlh Hhigh. unfold _median_of_three. rewrite shr1.
  assert (low <= (low + high) / 2 <= high) by (Z.div_mod_to_equations; lia).
  rewrite !getitem_in by lia. cbn [bind]. f_equal. unfold median3.
  destruct (Z.ltb_spec (get arr low) (get arr ((low + high) / 2)));
    destruct (Z.ltb_spec (get arr ((low + high) / 2)) (get arr high));
    destruct (Z.ltb_spec (get arr low) (get arr high)); lia.
Qed.

Lemma median_of_ninthers_member (arr : list Z) (low high : Z) :
  0 <= low -> low <= high -> high < len arr ->
  exists k, low <= k <= high /\
            (low < high -> high - low + 1 <> 9 -> k < high) /\
            _median_of_ninthers arr low high = Done (get arr k).
Proof.
  intros Hlow Hlh Hhigh.
  destruct (Z_lt_ge_dec (high - low + 1) 9) as [Hs|Hs].
  - unfold _median_of_ninthers. destruct (Z.ltb_spec (high - low + 1) 9); [|lia].
    rewrite shr1. exists ((low + high) / 2).
    assert (low <= (low + high) / 2 <= high /\
            (low < high -> (low + high) / 2 < high))
      by (Z.div_mod_to_equations; lia).
    split; [lia|]. split; [intros; lia|]. apply getitem_in; lia.
  - destruct (Z.eq_dec (high - low + 1) 9) as [E9|N9].
    + rewrite median_of_ninthers_refines. unfold median_of_ninthers_spec.
      destruct (Z.ltb_spec (high - low + 1) 9); [lia|].
      replace (Z.max ((high - low + 1) / 9) 1) with 1
        by (rewrite E9; reflexivity).
      cbn [comprehension].
      rewrite !getitem_in by lia. cbn [bind ninther_of].
      set (s := fun i => get arr (low + i * 1)).
      change (exists k, low <= k <= high /\
                (low < high -> high - low + 1 <> 9 -> k < high) /\
                Done (median3 (median3 (s 0) (s 1) (s 2))
                        (median3 (s 3) (s 4) (s 5))
                        (median3 (s 6) (s 7) (s 8))) = Done (get arr k)).
      assert (Hs9 : forall i, 0 <= i <= 8 ->
                      exists k, low <= k <= high /\ s i = get arr k).
      { intros i Hi; exists (low + i * 1); split; [lia|reflexivity]. }
      assert (Hm : forall a b c,
                 (exists k, low <= k <= high /\ a = get arr k) ->
                 (exists k, low <= k <= high /\ b = get arr k) ->
                 (exists k, low <= k <= high /\ c = get arr k) ->
                 exists k, low <= k <= high /\ median3 a b c = get arr k).
      { intros a b c Ha Hb Hc.
        destruct (median3_cases a b c) as [->|[->| ->]]; assumption. }
      destruct (Hm (median3 (s 0) (s 1) (s 2)) (median3 (s 3) (s 4) (s 5))
                  (median3 (s 6) (s 7) (s 8))) as (k & Hk & ->);
        [apply Hm; apply Hs9; lia ..|].
      exists k. split; [exact Hk|]. split; [intros; lia|reflexivity].
    + destruct (median_of_ninthers_in_range arr low high) as (k & Hk & E);
        try lia.
      exists k. split; [lia|]. split; [intros; lia|exact E].
Qed.

(** ** Sifting in [heapsort] *)

Lemma sift_down_spec (fuel : nat) (arr : list Z) (n i : Z) :
  0 <= i -> i < n -> n <= len arr ->
  heap_from arr 0 n (i + 1) ->
  (Z.to_nat (n - i) <= fuel)%nat ->
  exists arr',
    _sift_down fuel arr n i = Done arr' /\
    Permutation arr arr' /\
    heap_from arr' 0 n i /\
    (forall k, n <= k < len arr -> get arr' k = get arr k).
Proof.
  intros Hi Hin Hn Hh Hf. rewrite sift_down_eq.
  destruct (sift_spec fuel arr 0 n i i) as (arr' & E & Hl & Hp & Hfr & Hh');
    try lia.
  - split.
    + intros k Hk Hki; apply Hh; lia.
    + intros p Hp0 Hc; lia.
  - exists arr'. split; [exact E|]. split; [exact Hp|]. split; [exact Hh'|].
    intros k Hk. apply Hfr; lia.
Qed.

(** ** Depth of the nested calls *)

Lemma nesting_bound (fuel : nat) :
  forall (arr : list Z) (low high d : Z) (m : nat),
    0 <= low -> low <= high + 1 -> high < len arr ->
    (Z.to_nat (high - low + 2) <= fuel)%nat ->
    high - low + 1 <= 2 ^ Z.of_nat m ->
    (nesting fuel arr low high d <= m)%nat.
Proof.
  induction fuel as [|f IH]; intros arr low high d m Hlow Hlh Hhigh Hf Hm;
    [cbn; lia|].
  cbn [nesting].
  destruct (Z.ltb_spec low high) as [Hlt|Hge]; [|lia].
  destruct (_introsort_turn (S f) arr low high d) as [[r a|a c1 c2]| |] eqn:E;
    try lia.
  destruct (introsort_turn_descend (S f) arr low high d a c1 c2)
    as (Hbig & _ & Hla & j & Hj & Hc); auto; try lia.
  destruct m as [|m']; [change (2 ^ Z.of_nat 0) with 1 in Hm; lia|].
  assert (Hpow : 2 ^ Z.of_nat (S m') = 2 * 2 ^ Z.of_nat m').
  { rewrite Nat2Z.inj_succ, Z.pow_succ_r by lia. reflexivity. }
  destruct Hc as [(Hside & -> & ->)|(Hside & -> & ->)];
    cbn [c_low c_high c_maxdepth]; apply Nat.max_lub.
  - apply le_n_S. apply IH; lia.
  - destruct (introsort_range_spec f a low j (d - 1)) as (a1 & -> & H1); try lia.
    apply IH; try lia. rewrite (sr_len _ _ _ _ H1). lia.
  - apply le_n_S. apply IH; lia.
  - destruct (introsort_range_spec f a (j + 1) high (d - 1)) as (a1 & -> & H1);
      try lia.
    apply IH; try lia. rewrite (sr_len _ _ _ _ H1). lia.
Qed.

(** ** Partitioning equal elements *)

Lemma swapped_same (arr : list Z) (a b : Z) :
  get arr a = get arr b -> swapped arr a b = arr.
Proof.
  intros H; unfold swapped. rewrite <- H, put_get_same.
  rewrite H. apply put_get_same.
Qed.

Lemma partition_equal (low high pivot : Z) (fuel : nat) :
  forall (arr : list Z) (i j : Z) (reads : list Z),
    0 <= low -> high < len arr ->
    (forall k, low <= k <= high -> get arr k = pivot) ->
    low - 1 <= i -> i < j -> j <= high + 1 -> i + 1 <= high -> low <= j - 1 ->
    (Z.to_nat (j - i) <= fuel)%nat ->
    exists reads',
      partition_loop fuel arr pivot i j reads = Done (arr, (i + j) / 2, reads').
Proof.
  induction fuel as [|f IH]; intros arr i j reads Hlow Hhigh Heq Hi Hij Hj Hi1 Hj1 Hf;
    [lia|].
  cbn [partition_loop scan_up scan_down].
  rewrite (getitem_in arr (i + 1)) by lia. cbn [bind].
  rewrite (Heq (i + 1)) by lia. rewrite Z.ltb_irrefl.
  rewrite (getitem_in arr (j - 1)) by lia. cbn [bind].
  rewrite (Heq (j - 1)) by lia. rewrite Z.gtb_ltb, Z.ltb_irrefl.
  cbn [bind].
  destruct (Z.geb_spec (i + 1) (j - 1)) as [Hge|Hlt].
  - exists ((j - 1) :: (i + 1) :: reads).
    replace ((i + j) / 2) with (j - 1) by (Z.div_mod_to_equations; lia).
    reflexivity.
  - rewrite swap_items_in by lia. cbn [bind].
    rewrite swapped_same by (rewrite !Heq by lia; reflexivity).
    destruct (IH arr (i + 1) (j - 1) ((j - 1) :: (i + 1) :: reads))
      as (r' & ->); auto; try lia.
    exists r'. replace (i + 1 + (j - 1)) with (i + j) by lia. reflexivity.
Qed.

(** * Further properties of the code *)

(** X1.  On valid bounds [_insertion_sort(arr, low, high)] returns without
    error, and the list is then a permutation of what it was, with the
    range [low..high] in non-decreasing order. *)
Theorem insertion_sort_sorts_range (fuel : nat) (arr : list Z) (low high : Z) :
  0 <= low -> high < len arr -> (Z.to_nat (high - low) < fuel)%nat ->
  exists a,
    _insertion_sort fuel arr low high = Done a /\
    Permutation arr a /\
    forall p q, low <= p -> p <= q -> q <= high -> get a p <= get a q.
Proof.
  intros Hlow Hhigh Hf.
  destruct (insertion_sort_spec fuel arr low high Hlow Hhigh Hf)
    as (a & E & [_ Hp _ Hs]).
  exists a. split; [exact E|]. split; [exact Hp|exact Hs].
Qed.

Lemma insertion_sort_sorts_range_witness :
  0 <= 1 /\ 3 < len [9; 7; 5; 6; 0] /\ (Z.to_nat (3 - 1) < 3)%nat /\
  exists a,
    _insertion_sort 3 [9; 7; 5; 6; 0] 1 3 = Done a /\
    Permutation [9; 7; 5; 6; 0] a /\
    forall p q, 1 <= p -> p <= q -> q <= 3 -> get a p <= get a q.
Proof.
  assert (H1 : 0 <= 1) by lia.
  assert (H2 : 3 < len [9; 7; 5; 6; 0]) by (vm_compute; reflexivity).
  assert (H3 : (Z.to_nat (3 - 1) < 3)%nat) by (vm_compute; lia).
  repeat (split; [assumption|]).
  exact (insertion_sort_sorts_range 3 [9; 7; 5; 6; 0] 1 3 H1 H2 H3).
Defined.

(** X2.  On valid bounds [_heapsort_partial(arr, low, high)] returns without
    error, and the list is then a permutation of what it was, with the
    range [low..high] in non-decreasing order. *)
Theorem heapsort_partial_sorts_range (fuel : nat) (arr : list Z) (low high : Z) :
  0 <= low -> high < len arr -> (Z.to_nat (high - low + 1) <= fuel)%nat ->
  exists a,
    _heapsort_partial fuel arr low high = Done a /\
    Permutation arr a /\
    forall p q, low <= p -> p <= q -> q <= high -> get a p <= get a q.
Proof.
  intros Hlow Hhigh Hf.
  destruct (heapsort_partial_spec fuel arr low high Hlow Hhigh Hf)
    as (a & E & [_ Hp _ Hs]).
  exists a. split; [exact E|]. split; [exact Hp|exact Hs].
Qed.

Lemma heapsort_partial_sorts_range_witness :
  0 <= 1 /\ 4 < len [9; 7; 5; 6; 0; 8] /\ (Z.to_nat (4 - 1 + 1) <= 4)%nat /\
  exists a,
    _heapsort_partial 4 [9; 7; 5; 6; 0; 8] 1 4 = Done a /\
    Permutation [9; 7; 5; 6; 0; 8] a /\
    forall p q, 1 <= p -> p <= q -> q <= 4 -> get a p <= get a q.
Proof.
  assert (H1 : 0 <= 1) by lia.
  assert (H2 : 4 < len [9; 7; 5; 6; 0; 8]) by (vm_compute; reflexivity).
  assert (H3 : (Z.to_nat (4 - 1 + 1) <= 4)%nat) by (vm_compute; lia).
  repeat (split; [assumption|]).
  exact (heapsort_partial_sorts_range 4 [9; 7; 5; 6; 0; 8] 1 4 H1 H2 H3).
Defined.

(** X3.  [_sift_down(arr, n, i)] restores the max-heap: if every node
    after [i] of the heap [arr[0..n-1]] dominates its children, then after
    the call every node from [i] on does; the call only permutes the list
    and leaves the positions from [n] on alone. *)
Theorem sift_down_restores_heap (fuel : nat) (arr : list Z) (n i : Z) :
  0 <= i -> i < n -> n <= len arr ->
  heap_from arr 0 n (i + 1) ->
  (Z.to_nat (n - i) <= fuel)%nat ->
  exists arr',
    _sift_down fuel arr n i = Done arr' /\
    Permutation arr arr' /\
    heap_from arr' 0 n i /\
    (forall k, n <= k < len arr -> get arr' k = get arr k).
Proof. apply sift_down_spec. Qed.

Lemma sift_down_restores_heap_witness :
  0 <= 0 /\ 0 < 3 /\ 3 <= len [1; 5; 3; 9] /\
  heap_from [1; 5; 3; 9] 0 3 (0 + 1) /\
  (Z.to_nat (3 - 0) <= 3)%nat /\
  exists arr',
    _sift_down 3 [1; 5; 3; 9] 3 0 = Done arr' /\
    Permutation [1; 5; 3; 9] arr' /\
    heap_from arr' 0 3 0 /\
    (forall k, 3 <= k < len [1; 5; 3; 9] -> get arr' k = get [1; 5; 3; 9] k).
Proof.
  assert (H1 : 0 <= 0) by lia.
  assert (H2 : 0 < 3) by lia.
  assert (H3 : 3 <= len [1; 5; 3; 9]) by (vm_compute; discriminate).
  assert (H4 : heap_from [1; 5; 3; 9] 0 3 (0 + 1))
    by (intros k Hk; split; intros Hc; lia).
  assert (H5 : (Z.to_nat (3 - 0) <= 3)%nat) by (vm_compute; lia).
  repeat (split; [assumption|]).
  exact (sift_down_restores_heap 3 [1; 5; 3; 9] 3 0 H1 H2 H3 H4 H5).
Defined.

(** X4.  [heapsort(arr)] is [_heapsort_partial(arr, 0, len(arr) - 1)]: the
    two separately written heap sorts do the same thing to the list,
    errors included. *)
Theorem heapsort_is_heapsort_partial (fuel : nat) (arr : list Z) :
  heapsort fuel arr = _heapsort_partial fuel arr 0 (len arr - 1).
Proof. apply heapsort_eq. Qed.

(** X5.  [_merge(left, right)] of two non-decreasing lists is a
    non-decreasing list holding exactly the elements of both. *)
Theorem merge_of_ascending (left right : list Z) :
  non_decreasing left -> non_decreasing right ->
  Permutation (left ++ right) (_merge left right) /\
  non_decreasing (_merge left right).
Proof.
  intros Hl Hr. split; [apply merge_perm|].
  apply ascending_non_decreasing, merge_ascending;
    now apply non_decreasing_ascending.
Qed.

Lemma merge_of_ascending_witness :
  non_decreasing [1; 4; 4] /\ non_decreasing [2; 4] /\
  Permutation ([1; 4; 4] ++ [2; 4]) (_merge [1; 4; 4] [2; 4]) /\
  non_decreasing (_merge [1; 4; 4] [2; 4]).
Proof.
  assert (H1 : non_decreasing [1; 4; 4]).
  { apply ascending_non_decreasing. repeat (constructor; try lia). }
  assert (H2 : non_decreasing [2; 4]).
  { apply ascending_non_decreasing. repeat (constructor; try lia). }
  repeat (split; [assumption|]).
  exact (merge_of_ascending [1; 4; 4] [2; 4] H1 H2).
Defined.

(** X6.  On valid bounds [_median_of_three(arr, low, high)] returns the
    median of [arr[low]], [arr[(low+high)/2]] and [arr[high]]. *)
Theorem median_of_three_is_median (arr : list Z) (low high : Z) :
  0 <= low -> low <= high -> high < len arr ->
  exists x y,
    _median_of_three arr low high
    = Done (median3 (get arr low) (get arr ((low + high) / 2)) (get arr high)) /\
    Permutation [get arr low; get arr ((low + high) / 2); get arr high]
      [x; median3 (get arr low) (get arr ((low + high) / 2)) (get arr high); y] /\
    x <= median3 (get arr low) (get arr ((low + high) / 2)) (get arr high) <= y.
Proof.
  intros Hlow Hlh Hhigh.
  destruct (median3_is_median (get arr low) (get arr ((low + high) / 2))
              (get arr high)) as (x & y & Hp & Hxy).
  exists x, y. split; [now apply median_of_three_spec|]. split; assumption.
Qed.

Lemma median_of_three_is_median_witness :
  0 <= 0 /\ 0 <= 4 /\ 4 < len [7; 0; 9; 0; 8] /\
  exists x y,
    _median_of_three [7; 0; 9; 0; 8] 0 4
    = Done (median3 (get [7; 0; 9; 0; 8] 0) (get [7; 0; 9; 0; 8] ((0 + 4) / 2))
              (get [7; 0; 9; 0; 8] 4)) /\
    Permutation [get [7; 0; 9; 0; 8] 0; get [7; 0; 9; 0; 8] ((0 + 4) / 2);
                 get [7; 0; 9; 0; 8] 4]
      [x; median3 (get [7; 0; 9; 0; 8] 0) (get [7; 0; 9; 0; 8] ((0 + 4) / 2))
            (get [7; 0; 9; 0; 8] 4); y] /\
    x <= median3 (get [7; 0; 9; 0; 8] 0) (get [7; 0; 9; 0; 8] ((0 + 4) / 2))
           (get [7; 0; 9; 0; 8] 4) <= y.
Proof.
  assert (H1 : 0 <= 0) by lia.
  assert (H2 : 0 <= 4) by lia.
  assert (H3 : 4 < len [7; 0; 9; 0; 8]) by (vm_compute; reflexivity).
  repeat (split; [assumption|]).
  exact (median_of_three_is_median [7; 0; 9; 0; 8] 0 4 H1 H2 H3).
Defined.

(** X7.  On valid bounds [_median_of_ninthers] returns without error the
    value found at some index of [low..high]; unless the range has exactly
    9 elements (or just one) that index is below [high], so the pivot the
    driver partitions around never comes from the last position only. *)
Theorem ninthers_pivot_in_range (arr : list Z) (low high : Z) :
  0 <= low -> low <= high -> high < len arr ->
  exists k, low <= k <= high /\
            (low < high -> high - low + 1 <> 9 -> k < high) /\
            _median_of_ninthers arr low high = Done (get arr k).
Proof. apply median_of_ninthers_member. Qed.

Lemma ninthers_pivot_in_range_witness :
  0 <= 0 /\ 0 <= 16 /\
  16 < len [17; 16; 15; 14; 13; 12; 11; 10; 9; 8; 7; 6; 5; 4; 3; 2; 1] /\
  exists k, 0 <= k <= 16 /\
            (0 < 16 -> 16 - 0 + 1 <> 9 -> k < 16) /\
            _median_of_ninthers
              [17; 16; 15; 14; 13; 12; 11; 10; 9; 8; 7; 6; 5; 4; 3; 2; 1] 0 16
            = Done (get [17; 16; 15; 14; 13; 12; 11; 10; 9; 8; 7; 6; 5; 4; 3; 2; 1] k).
Proof.
  assert (H1 : 0 <= 0) by lia.
  assert (H2 : 0 <= 16) by lia.
  assert (H3 : 16 < len [17; 16; 15; 14; 13; 12; 11; 10; 9; 8; 7; 6; 5; 4; 3; 2; 1])
    by (vm_compute; reflexivity).
  repeat (split; [assumption|]).
  exact (ninthers_pivot_in_range
           [17; 16; 15; 14; 13; 12; 11; 10; 9; 8; 7; 6; 5; 4; 3; 2; 1] 0 16
           H1 H2 H3).
Defined.

(** X8.  For [low < high] within the list, [_hoare_partition] returns a
    split index [p] with [low <= p < high], so that [low..p] and
    [p+1..high] are both non-empty and smaller than [low..high]; it keeps
    the length of the list and every element outside [low..high]. *)
Theorem hoare_partition_strict_split (fuel : nat) (arr : list Z) (low high : Z) :
  0 <= low -> low < high -> high < len arr ->
  (Z.to_nat (high - low + 2) <= fuel)%nat ->
  exists arr' p,
    _hoare_partition fuel arr low high = Done (arr', p) /\
    low <= p < high /\ len arr' = len arr /\
    forall k, 0 <= k < len arr -> k < low \/ high < k -> get arr' k = get arr k.
Proof.
  intros Hlow Hlh Hhigh Hf.
  destruct (hoare_partition_spec fuel arr low high Hlow Hlh Hhigh Hf)
    as (arr' & p & E & [Hl _ Hfr _ _] & Hp).
  exists arr', p. split; [exact E|]. split; [exact Hp|]. split; [exact Hl|exact Hfr].
Qed.

Lemma hoare_partition_strict_split_witness :
  0 <= 1 /\ 1 < 5 /\ 5 < len [9; 4; 7; 4; 1; 8; 0] /\
  (Z.to_nat (5 - 1 + 2) <= 6)%nat /\
  exists arr' p,
    _hoare_partition 6 [9; 4; 7; 4; 1; 8; 0] 1 5 = Done (arr', p) /\
    1 <= p < 5 /\ len arr' = len [9; 4; 7; 4; 1; 8; 0] /\
    forall k, 0 <= k < len [9; 4; 7; 4; 1; 8; 0] -> k < 1 \/ 5 < k ->
              get arr' k = get [9; 4; 7; 4; 1; 8; 0] k.
Proof.
  assert (H1 : 0 <= 1) by lia.
  assert (H2 : 1 < 5) by lia.
  assert (H3 : 5 < len [9; 4; 7; 4; 1; 8; 0]) by (vm_compute; reflexivity).
  assert (H4 : (Z.to_nat (5 - 1 + 2) <= 6)%nat) by (vm_compute; lia).
  repeat (split; [assumption|]).
  exact (hoare_partition_strict_split 6 [9; 4; 7; 4; 1; 8; 0] 1 5 H1 H2 H3 H4).
Defined.

(** X9.  [quicksort_hoare(arr, low, high)] with explicit bounds inside the
    list sorts the range [low..high] in place: the list is permuted, the
    range ends in non-decreasing order and every element outside it stays
    where it was. *)
Theorem quicksort_hoare_sorts_range (fuel : nat) (arr : list Z) (low high : Z) :
  0 <= low -> low <= high + 1 -> high < len arr ->
  (Z.to_nat (high - low + 2) <= fuel)%nat ->
  exists a,
    quicksort_hoare_range fuel arr low high = Done a /\
    Permutation arr a /\
    (forall p q, low <= p -> p <= q -> q <= high -> get a p <= get a q) /\
    (forall k, 0 <= k < len arr -> k < low \/ high < k -> get a k = get arr k).
Proof.
  intros Hlow Hlh Hhigh Hf.
  destruct (quicksort_hoare_range_spec fuel arr low high Hlow Hlh Hhigh Hf)
    as (a & E & [_ Hp Hfr Hs]).
  exists a. split; [exact E|]. split; [exact Hp|]. split; [exact Hs|exact Hfr].
Qed.

Lemma quicksort_hoare_sorts_range_witness :
  0 <= 1 /\ 1 <= 5 + 1 /\ 5 < len [9; 4; 7; 4; 1; 8; 0] /\
  (Z.to_nat (5 - 1 + 2) <= 6)%nat /\
  exists a,
    quicksort_hoare_range 6 [9; 4; 7; 4; 1; 8; 0] 1 5 = Done a /\
    Permutation [9; 4; 7; 4; 1; 8; 0] a /\
    (forall p q, 1 <= p -> p <= q -> q <= 5 -> get a p <= get a q) /\
    (forall k, 0 <= k < len [9; 4; 7; 4; 1; 8; 0] -> k < 1 \/ 5 < k ->
               get a k = get [9; 4; 7; 4; 1; 8; 0] k).
Proof.
  assert (H1 : 0 <= 1) by lia.
  assert (H2 : 1 <= 5 + 1) by lia.
  assert (H3 : 5 < len [9; 4; 7; 4; 1; 8; 0]) by (vm_compute; reflexivity).
  assert (H4 : (Z.to_nat (5 - 1 + 2) <= 6)%nat) by (vm_compute; lia).
  repeat (split; [assumption|]).
  exact (quicksort_hoare_sorts_range 6 [9; 4; 7; 4; 1; 8; 0] 1 5 H1 H2 H3 H4).
Defined.

(** X10.  [_introsort(arr, low, high, maxdepth)] on bounds inside the list
    sorts the range [low..high] in place whatever the depth budget it is
    given (negative ones included) and leaves every element outside the
    range where it was. *)
Theorem introsort_range_any_budget
  (fuel : nat) (arr : list Z) (low high maxdepth : Z) :
  0 <= low -> low <= high + 1 -> high < len arr ->
  (Z.to_nat (high - low + 2) <= fuel)%nat ->
  exists a,
    _introsort fuel arr low high maxdepth = Done a /\
    Permutation arr a /\
    (forall p q, low <= p -> p <= q -> q <= high -> get a p <= get a q) /\
    (forall k, 0 <= k < len arr -> k < low \/ high < k -> get a k = get arr k).
Proof.
  intros Hlow Hlh Hhigh Hf.
  destruct (introsort_range_spec fuel arr low high maxdepth Hlow Hlh Hhigh Hf)
    as (a & E & [_ Hp Hfr Hs]).
  exists a. split; [exact E|]. split; [exact Hp|]. split; [exact Hs|exact Hfr].
Qed.

Lemma introsort_range_any_budget_witness :
  0 <= 1 /\ 1 <= 18 + 1 /\ 18 < len (map Z.of_nat (rev (seq 0 20))) /\
  (Z.to_nat (18 - 1 + 2) <= 19)%nat /\
  exists a,
    _introsort 19 (map Z.of_nat (rev (seq 0 20))) 1 18 (-3) = Done a /\
    Permutation (map Z.of_nat (rev (seq 0 20))) a /\
    (forall p q, 1 <= p -> p <= q -> q <= 18 -> get a p <= get a q) /\
    (forall k, 0 <= k < len (map Z.of_nat (rev (seq 0 20))) -> k < 1 \/ 18 < k ->
               get a k = get (map Z.of_nat (rev (seq 0 20))) k).
Proof.
  assert (H1 : 0 <= 1) by lia.
  assert (H2 : 1 <= 18 + 1) by lia.
  assert (H3 : 18 < len (map Z.of_nat (rev (seq 0 20))))
    by (vm_compute; reflexivity).
  assert (H4 : (Z.to_nat (18 - 1 + 2) <= 19)%nat) by (vm_compute; lia).
  repeat (split; [assumption|]).
  exact (introsort_range_any_budget 19 (map Z.of_nat (rev (seq 0 20))) 1 18 (-3)
           H1 H2 H3 H4).
Defined.

(** X11.  On the same valid range the four in-place range sorts,
    [_insertion_sort], [_heapsort_partial], [quicksort_hoare] and
    [_introsort] (with any depth budget), leave the same list. *)
Theorem range_sorts_agree (fuel : nat) (arr : list Z) (low high : Z) :
  0 <= low -> low <= high -> high < len arr ->
  (Z.to_nat (high - low + 2) <= fuel)%nat ->
  exists s,
    _insertion_sort fuel arr low high = Done s /\
    _heapsort_partial fuel arr low high = Done s /\
    quicksort_hoare_range fuel arr low high = Done s /\
    forall maxdepth, _introsort fuel arr low high maxdepth = Done s.
Proof.
  intros Hlow Hlh Hhigh Hf.
  destruct (insertion_sort_spec fuel arr low high) as (s & E1 & H1); try lia.
  destruct (heapsort_partial_spec fuel arr low high) as (s2 & E2 & H2); try lia.
  destruct (quicksort_hoare_range_spec fuel arr low high) as (s3 & E3 & H3);
    try lia.
  assert (Hu : forall t, sorts_range arr t low high -> t = s)
    by (intros t Ht; apply (sorts_range_unique arr t s low high); auto; lia).
  rewrite (Hu s2 H2) in E2. rewrite (Hu s3 H3) in E3.
  exists s. repeat (split; [assumption|]).
  intros d.
  destruct (introsort_range_spec fuel arr low high d) as (s4 & E4 & H4); try lia.
  now rewrite (Hu s4 H4) in E4.
Qed.

Lemma range_sorts_agree_witness :
  0 <= 1 /\ 1 <= 5 /\ 5 < len [9; 4; 7; 4; 1; 8; 0] /\
  (Z.to_nat (5 - 1 + 2) <= 6)%nat /\
  exists s,
    _insertion_sort 6 [9; 4; 7; 4; 1; 8; 0] 1 5 = Done s /\
    _heapsort_partial 6 [9; 4; 7; 4; 1; 8; 0] 1 5 = Done s /\
    quicksort_hoare_range 6 [9; 4; 7; 4; 1; 8; 0] 1 5 = Done s /\
    forall maxdepth, _introsort 6 [9; 4; 7; 4; 1; 8; 0] 1 5 maxdepth = Done s.
Proof.
  assert (H1 : 0 <= 1) by lia.
  assert (H2 : 1 <= 5) by lia.
  assert (H3 : 5 < len [9; 4; 7; 4; 1; 8; 0]) by (vm_compute; reflexivity).
  assert (H4 : (Z.to_nat (5 - 1 + 2) <= 6)%nat) by (vm_compute; lia).
  repeat (split; [assumption|]).
  exact (range_sorts_agree 6 [9; 4; 7; 4; 1; 8; 0] 1 5 H1 H2 H3 H4).
Defined.

(** X12.  A list that is already in non-decreasing order is returned
    unchanged by each of the five sorts; in particular sorting twice gives
    what sorting once gives. *)
Theorem sorted_input_unchanged (A : list Z) (fuel : nat) :
  non_decreasing A -> (length A < fuel)%nat ->
  heapsort fuel A = Done A /\
  quicksort_hoare fuel A = Done A /\
  mergesort fuel A = Done A /\
  mergesort_bottom_up fuel A = Done A /\
  introsort fuel A = Done A.
Proof.
  intros Hs Hf. apply non_decreasing_ascending in Hs.
  destruct (heapsort_sorts fuel A ltac:(lia)) as (s1 & E1 & P1 & S1).
  destruct (quicksort_hoare_sorts fuel A Hf) as (s2 & E2 & P2 & S2).
  destruct (mergesort_spec fuel A Hf) as (s3 & E3 & P3 & S3).
  destruct (mergesort_bottom_up_spec fuel A Hf) as (s4 & E4 & P4 & S4).
  destruct (introsort_sorts fuel A Hf) as (s5 & E5 & P5 & S5).
  assert (Hu : forall t, Permutation A t -> ascending t -> t = A)
    by (intros t Pt St; symmetry; now apply ascending_perm_unique).
  rewrite (Hu s1 P1 S1) in E1. rewrite (Hu s2 P2 S2) in E2.
  rewrite (Hu s3 P3 S3) in E3. rewrite (Hu s4 P4 S4) in E4.
  rewrite (Hu s5 P5 S5) in E5. auto.
Qed.

Lemma sorted_input_unchanged_witness :
  non_decreasing [1; 3; 3; 5; 8; 9] /\ (length [1; 3; 3; 5; 8; 9] < 7)%nat /\
  heapsort 7 [1; 3; 3; 5; 8; 9] = Done [1; 3; 3; 5; 8; 9] /\
  quicksort_hoare 7 [1; 3; 3; 5; 8; 9] = Done [1; 3; 3; 5; 8; 9] /\
  mergesort 7 [1; 3; 3; 5; 8; 9] = Done [1; 3; 3; 5; 8; 9] /\
  mergesort_bottom_up 7 [1; 3; 3; 5; 8; 9] = Done [1; 3; 3; 5; 8; 9] /\
  introsort 7 [1; 3; 3; 5; 8; 9] = Done [1; 3; 3; 5; 8; 9].
Proof.
  assert (H1 : non_decreasing [1; 3; 3; 5; 8; 9]).
  { apply ascending_non_decreasing. repeat (constructor; try lia). }
  assert (H2 : (length [1; 3; 3; 5; 8; 9] < 7)%nat) by (vm_compute; lia).
  repeat (split; [assumption|]).
  exact (sorted_input_unchanged [1; 3; 3; 5; 8; 9] 7 H1 H2).
Defined.

(** X13.  One pass of [mergesort_bottom_up] over a list made of
    non-decreasing runs of [width] elements (the last possibly shorter)
    leaves the same elements arranged in non-decreasing runs of
    [2 * width] elements. *)
Theorem merge_pass_doubles_runs (result : list Z) (width : Z) :
  1 <= width -> runs (Z.to_nat width) result ->
  Permutation result (merge_pass result (len result) width) /\
  runs (Z.to_nat (2 * width)) (merge_pass result (len result) width).
Proof. apply merge_pass_spec. Qed.

Lemma merge_pass_doubles_runs_witness :
  1 <= 1 /\ runs (Z.to_nat 1) [5; 3; 8; 3; 9] /\
  Permutation [5; 3; 8; 3; 9] (merge_pass [5; 3; 8; 3; 9] (len [5; 3; 8; 3; 9]) 1) /\
  runs (Z.to_nat (2 * 1)) (merge_pass [5; 3; 8; 3; 9] (len [5; 3; 8; 3; 9]) 1).
Proof.
  assert (H1 : 1 <= 1) by lia.
  assert (H2 : runs (Z.to_nat 1) [5; 3; 8; 3; 9]) by apply runs_one.
  repeat (split; [assumption|]).
  exact (merge_pass_doubles_runs [5; 3; 8; 3; 9] 1 H1 H2).
Defined.

(** X15.  The sanity check that ends [main] in the two-sort benchmark,
    [heapsort(arr1) == quicksort_hoare(arr2)] on two copies of one list,
    holds for every list. *)
Theorem heapsort_equals_quicksort (A : list Z) (fuel : nat) :
  (length A < fuel)%nat ->
  exists s, heapsort fuel A = Done s /\ quicksort_hoare fuel A = Done s.
Proof.
  intros Hf.
  destruct (heapsort_sorts fuel A ltac:(lia)) as (s1 & E1 & P1 & S1).
  destruct (quicksort_hoare_sorts fuel A Hf) as (s2 & E2 & P2 & S2).
  exists s1. split; [exact E1|].
  rewrite E2. f_equal. apply ascending_perm_unique; auto.
  eapply Permutation_trans; [apply Permutation_sym; exact P2|exact P1].
Qed.

Lemma heapsort_equals_quicksort_witness :
  (length [5; 3; 8; 3; 9; 1] < 7)%nat /\
  exists s, heapsort 7 [5; 3; 8; 3; 9; 1] = Done s /\
            quicksort_hoare 7 [5; 3; 8; 3; 9; 1] = Done s.
Proof.
  assert (H : (length [5; 3; 8; 3; 9; 1] < 7)%nat) by (vm_compute; lia).
  split; [exact H|].
  exact (heapsort_equals_quicksort [5; 3; 8; 3; 9; 1] 7 H).
Defined.

(** X16.  [_insertion_sort] does not clamp its bounds: with [0 <= low <
    high] and [high] at or past the end of the list it raises
    [IndexError] (when the loop index reaches [len(arr)]). *)
Theorem insertion_sort_past_end_raises
  (fuel : nat) (arr : list Z) (low high : Z) :
  0 <= low -> low < high -> len arr <= high ->
  (Z.to_nat (len arr - low) <= fuel)%nat ->
  _insertion_sort fuel arr low high = Raise IndexError.
Proof. apply insertion_sort_past_end. Qed.

Lemma insertion_sort_past_end_raises_witness :
  0 <= 0 /\ 0 < 5 /\ len [3; 1; 2] <= 5 /\
  (Z.to_nat (len [3; 1; 2]%Z - 0) <= 3)%nat /\
  _insertion_sort 3 [3; 1; 2] 0 5 = Raise IndexError.
Proof.
  assert (H1 : 0 <= 0) by lia.
  assert (H2 : 0 < 5) by lia.
  assert (H3 : len [3; 1; 2] <= 5) by (vm_compute; discriminate).
  assert (H4 : (Z.to_nat (len [3; 1; 2]%Z - 0) <= 3)%nat) by (vm_compute; lia).
  repeat (split; [assumption|]).
  exact (insertion_sort_past_end_raises 3 [3; 1; 2] 0 5 H1 H2 H3 H4).
Defined.

(** X17.  The driver nests its calls only logarithmically deep: the nested
    call of a turn is for at most half of the elements of the current
    range, so on a list of at most [2^m] elements the calls of
    [_introsort] never nest deeper than [m], whatever the depth budget. *)
Theorem introsort_nesting_logarithmic (A : list Z) (fuel m : nat) :
  len A <= 2 ^ Z.of_nat m -> (length A < fuel)%nat ->
  (forall maxdepth,
     (nesting fuel A 0 (len A - 1) maxdepth <= m)%nat) /\
  (forall f arr low high d a c1 c2,
     0 <= low -> low < high -> high < len arr ->
     (Z.to_nat (high - low + 2) <= f)%nat ->
     _introsort_turn f arr low high d = Done (Descend a c1 c2) ->
     2 * (c_high c1 - c_low c1 + 1) <= high - low + 1).
Proof.
  intros Hm Hf. split.
  - intros d. apply nesting_bound; unfold len in *; lia.
  - intros f arr low high d a c1 c2 H1 H2 H3 H4 H5.
    destruct (introsort_turn_descend f arr low high d a c1 c2 H1 H2 H3 H4 H5)
      as (_ & _ & _ & j & Hj & [(Hs & -> & ->)|(Hs & -> & ->)]);
      cbn [c_low c_high]; lia.
Qed.

Lemma introsort_nesting_logarithmic_witness :
  len (map Z.of_nat (rev (seq 0 60))) <= 2 ^ Z.of_nat 6 /\
  (length (map Z.of_nat (rev (seq 0 60))) < 61)%nat /\
  (forall maxdepth,
     (nesting 61 (map Z.of_nat (rev (seq 0 60))) 0
        (len (map Z.of_nat (rev (seq 0 60))) - 1) maxdepth <= 6)%nat) /\
  (forall f arr low high d a c1 c2,
     0 <= low -> low < high -> high < len arr ->
     (Z.to_nat (high - low + 2) <= f)%nat ->
     _introsort_turn f arr low high d = Done (Descend a c1 c2) ->
     2 * (c_high c1 - c_low c1 + 1) <= high - low + 1).
Proof.
  assert (H1 : len (map Z.of_nat (rev (seq 0 60))) <= 2 ^ Z.of_nat 6)
    by (vm_compute; discriminate).
  assert (H2 : (length (map Z.of_nat (rev (seq 0 60))) < 61)%nat)
    by (vm_compute; lia).
  repeat (split; [assumption|]).
  exact (introsort_nesting_logarithmic (map Z.of_nat (rev (seq 0 60))) 61 6 H1 H2).
Defined.

(** X18.  On a range whose elements all equal the pivot the partition
    splits in the middle: both cursors stop at every step, the loop
    returns [j = (low + high) / 2] and the list is as it was.  So equal
    keys give balanced sides; this is the partition of [_hoare_partition]
    and of [_introsort] alike. *)
Theorem partition_of_equal_elements
  (fuel : nat) (arr : list Z) (low high pivot : Z) :
  0 <= low -> low <= high -> high < len arr ->
  (forall k, low <= k <= high -> get arr k = pivot) ->
  (Z.to_nat (high - low + 2) <= fuel)%nat ->
  (exists reads,
     partition_loop fuel arr pivot (low - 1) (high + 1) []
     = Done (arr, (low + high) / 2, reads)) /\
  _hoare_partition fuel arr low high = Done (arr, (low + high) / 2).
Proof.
  intros Hlow Hlh Hhigh Heq Hf.
  destruct (partition_equal low high pivot fuel arr (low - 1) (high + 1) [])
    as (reads & E); auto; try lia.
  replace (low - 1 + (high + 1)) with (low + high) in E by lia.
  split; [now exists reads|].
  unfold _hoare_partition. rewrite shr1.
  assert (low <= (low + high) / 2 <= high) by (Z.div_mod_to_equations; lia).
  rewrite getitem_in by lia. cbn [bind]. rewrite Heq by lia.
  rewrite E. reflexivity.
Qed.

Lemma partition_of_equal_elements_witness :
  0 <= 1 /\ 1 <= 6 /\ 6 < len [0; 7; 7; 7; 7; 7; 7; 9] /\
  (forall k, 1 <= k <= 6 -> get [0; 7; 7; 7; 7; 7; 7; 9] k = 7) /\
  (Z.to_nat (6 - 1 + 2) <= 7)%nat /\
  (exists reads,
     partition_loop 7 [0; 7; 7; 7; 7; 7; 7; 9] 7 (1 - 1) (6 + 1) []
     = Done ([0; 7; 7; 7; 7; 7; 7; 9], (1 + 6) / 2, reads)) /\
  _hoare_partition 7 [0; 7; 7; 7; 7; 7; 7; 9] 1 6
  = Done ([0; 7; 7; 7; 7; 7; 7; 9], (1 + 6) / 2).
Proof.
  assert (H1 : 0 <= 1) by lia.
  assert (H2 : 1 <= 6) by lia.
  assert (H3 : 6 < len [0; 7; 7; 7; 7; 7; 7; 9]) by (vm_compute; reflexivity).
  assert (H4 : forall k, 1 <= k <= 6 -> get [0; 7; 7; 7; 7; 7; 7; 9] k = 7).
  { intros k Hk.
    assert (Hc : k = 1 \/ k = 2 \/ k = 3 \/ k = 4 \/ k = 5 \/ k = 6) by lia.
    destruct Hc as [->|[->|[->|[->|[->| ->]]]]]; reflexivity. }
  assert (H5 : (Z.to_nat (6 - 1 + 2) <= 7)%nat) by (vm_compute; lia).
  repeat (split; [assumption|]).
  exact (partition_of_equal_elements 7 [0; 7; 7; 7; 7; 7; 7; 9] 1 6 7
           H1 H2 H3 H4 H5).
Defined.
